(** * Resolver layer of the medical-appointments GraphQL service

    A shallow embedding of [src/resolvers.ts]: the six resolvers
    ([getPacient], [getAppointments], [addPatient], [addAppointment],
    [deleteAppointment], [updatePatient]) written as state-passing
    functions over a model of the two MongoDB collections, followed by the
    properties of the specification that concern them. *)

From Stdlib Require Import ZArith NArith Ascii String List Lia.
From stdpp Require Import base option list strings gmap fin_maps.

Local Open Scope string_scope.
Local Open Scope N_scope.
Local Open Scope list_scope.

(** ** Data *)

(** A MongoDB [ObjectId]. Only identity matters to the resolvers, so the
    twelve bytes are read as one number. *)
Definition ObjectId : Type := N.

(** The time value of a JavaScript [Date]: milliseconds since the epoch,
    or [None] for the NaN time value of an "Invalid Date". *)
Definition JsDate : Type := option Z.

(** Argument values handed over by the GraphQL dispatcher. Every argument
    of the schema is a [String] or an [ID], so a value is a string or, for
    a nullable argument given explicitly as null, [GNull]. A key that is
    absent from the [args] object reads as [undefined]: [args !! k = None]. *)
Inductive GqlValue : Type :=
  | GNull
  | GStr (s : string).

(** Field values of stored documents. *)
Inductive Bson : Type :=
  | BNull
  | BStr (s : string)
  | BOid (o : ObjectId)
  | BDate (ms : Z).

#[global] Instance GqlValue_eq_dec : EqDecision GqlValue.
Proof. solve_decision. Defined.
#[global] Instance Bson_eq_dec : EqDecision Bson.
Proof. solve_decision. Defined.

Definition toBson (v : GqlValue) : Bson :=
  match v with
  | GNull => BNull
  | GStr s => BStr s
  end.

(** A stored document and a resolver's [args] object: JavaScript objects
    used as maps from field name to value. *)
Abbreviation Doc := (gmap string Bson).
Abbreviation Args := (gmap string GqlValue).

(** The object literal that [addAppointment] returns; its [fecha] is the
    JavaScript [Date] itself, not the stored value. *)
Record Cita : Type := mkCita {
  cita__id : ObjectId;
  cita_paciente : ObjectId;
  cita_fecha : JsDate;
  cita_tipo : string
}.

(** [parent._id] of a document. *)
Definition doc_id (d : Doc) : option ObjectId :=
  match d !! "_id" with
  | Some (BOid o) => Some o
  | _ => None
  end.

(** ** The world the resolvers run in *)

(** The two collections in natural (insertion) order, the state of the
    driver's ObjectId generator, and the phone numbers that have been
    sent to [validar], oldest first. *)
Record World : Type := mkWorld {
  pacientes : list Doc;
  citas : list Doc;
  nextObjectId : ObjectId;
  validarCalls : list string
}.

(** The handles of [Context]. *)
Inductive Collection : Type :=
  | PacientesCollection
  | CitasCollection.

Definition docs (c : Collection) (w : World) : list Doc :=
  match c with
  | PacientesCollection => pacientes w
  | CitasCollection => citas w
  end.

Definition set_docs (c : Collection) (l : list Doc) (w : World) : World :=
  match c with
  | PacientesCollection =>
      mkWorld l (citas w) (nextObjectId w) (validarCalls w)
  | CitasCollection =>
      mkWorld (pacientes w) l (nextObjectId w) (validarCalls w)
  end.

(** ** Awaited computations that may throw *)

(** What a resolver can throw. The resolvers' own errors are told apart
    by their message: "Contact not found" and "Paciente no encontrado" are
    the specification's NotFound, "ya existe el paciente" and "Ya existe
    una cita para este paciente en esa fecha" its Conflict, "telefono
    invalido" its InvalidArgument. The identifier constructor's own error,
    thrown on a string that is no identifier, is the InvalidArgument of a
    malformed identifier. *)
Inductive Error : Type :=
  | GraphQLError (message : string)  (* thrown by the resolvers *)
  | BSONError.                       (* thrown by [new ObjectId(...)] *)

Inductive Outcome (A : Type) : Type :=
  | Return (a : A)
  | Throw (e : Error).
Arguments Return {A} a.
Arguments Throw {A} e.

Definition Async (A : Type) : Type := World -> Outcome A * World.

Definition ret {A} (a : A) : Async A := fun w => (Return a, w).

Definition throw {A} (e : Error) : Async A := fun w => (Throw e, w).

Definition bind {A B} (m : Async A) (k : A -> Async B) : Async B :=
  fun w =>
    match m w with
    | (Return a, w') => k a w'
    | (Throw e, w') => (Throw e, w')
    end.

Notation "'let*' x ':=' m 'in' k" := (bind m (fun x => k))
  (at level 10, x name, m at level 100, k at level 200).

(** ** The document store *)

(** The query documents the resolvers build: [{k: v}], several fields in
    one document (a conjunction) and [$or]. *)
Inductive Filter : Type :=
  | FField (k : string) (v : Bson)
  | FAnd (p q : Filter)
  | FOr (p q : Filter).

Fixpoint matches (q : Filter) (d : Doc) : bool :=
  match q with
  | FField k v => bool_decide (d !! k = Some v)
  | FAnd p r => matches p d && matches r d
  | FOr p r => matches p d || matches r d
  end.

(** The driver creates the [_id] of an inserted document on the client
    with [new ObjectId()]; [new ObjectId(undefined)] in a resolver draws
    from the same generator. *)
Definition generate : Async ObjectId :=
  fun w =>
    (Return (nextObjectId w),
     mkWorld (pacientes w) (citas w) (nextObjectId w + 1) (validarCalls w)).

(** The world once [telefono] has been sent to the validator. *)
Definition asked (telefono : string) (w : World) : World :=
  mkWorld (pacientes w) (citas w) (nextObjectId w)
          (validarCalls w ++ [telefono]).

Definition findOne (c : Collection) (q : Filter) : Async (option Doc) :=
  fun w => (Return (find (matches q) (docs c w)), w).

Definition find_all (c : Collection) : Async (list Doc) :=
  fun w => (Return (docs c w), w).

Definition insertOne (c : Collection) (d : Doc) : Async ObjectId :=
  let* insertedId := generate in
  fun w =>
    (Return insertedId,
     set_docs c (docs c w ++ [<["_id" := BOid insertedId]> d]) w).

Fixpoint delete_first (p : Doc -> bool) (l : list Doc) : option (list Doc) :=
  match l with
  | [] => None
  | d :: l' =>
      if p d then Some l'
      else match delete_first p l' with
           | Some r => Some (d :: r)
           | None => None
           end
  end.

(** [deleteOne] answers with its [deletedCount]. *)
Definition deleteOne (c : Collection) (q : Filter) : Async N :=
  fun w =>
    match delete_first (matches q) (docs c w) with
    | Some l' => (Return 1, set_docs c l' w)
    | None => (Return 0, w)
    end.

Fixpoint update_first (p : Doc -> bool) (f : Doc -> Doc) (l : list Doc)
  : option (Doc * list Doc) :=
  match l with
  | [] => None
  | d :: l' =>
      if p d then Some (f d, f d :: l')
      else match update_first p f l' with
           | Some (r, l'') => Some (r, d :: l'')
           | None => None
           end
  end.

(** [{$set: fields}] on top-level field names: the supplied fields
    replace the stored ones, every other field stays, and an empty
    [fields] changes nothing. *)
Definition set_fields (fields : Doc) (d : Doc) : Doc := fields ∪ d.

(** [findOneAndUpdate(q, {$set: fields}, {returnDocument: "after"})]. *)
Definition findOneAndUpdate (c : Collection) (q : Filter) (fields : Doc)
  : Async (option Doc) :=
  fun w =>
    match update_first (matches q) (set_fields fields) (docs c w) with
    | Some (r, l') => (Return (Some r), set_docs c l' w)
    | None => (Return None, w)
    end.

(** JavaScript truthiness of an argument: [undefined], [null] and the
    empty string are falsy. *)
Definition truthy (v : option GqlValue) : bool :=
  match v with
  | Some (GStr s) => negb (String.eqb s "")
  | _ => false
  end.

(** ** Collaborators outside the resolver file *)

Class Externals : Type := {
  (** [validar] of [utils.ts]: the phone-format predicate. *)
  validar : string -> bool;
  (** The string case of the [ObjectId] constructor: the identifier the
      string denotes, or [None] where the constructor throws. *)
  ObjectId_ofString : string -> option ObjectId;
  (** [new Date(s).getTime()], with [None] for NaN. *)
  Date_parse : string -> JsDate;
  (** The driver's encoding of a [Date] as a stored UTC datetime. *)
  bsonDate : JsDate -> Z
}.

(** ** The resolvers *)

Section Resolvers.

Context `{Externals}.

(** [new ObjectId(v)]: a fresh identifier for [undefined] and [null],
    the parsed identifier for a string. *)
Definition new_ObjectId (v : option GqlValue) : Async ObjectId :=
  match v with
  | None | Some GNull => generate
  | Some (GStr s) =>
      match ObjectId_ofString s with
      | Some o => ret o
      | None => throw BSONError
      end
  end.

Definition new_Date (s : string) : Async JsDate := ret (Date_parse s).

(** [await validar(telefono)], remembering that it was asked. *)
Definition call_validar (telefono : string) : Async bool :=
  fun w => (Return (validar telefono), asked telefono w).

(** *** Query *)

Definition getPacient (id : string) : Async Doc :=
  let* _id := new_ObjectId (Some (GStr id)) in
  let* result := findOne PacientesCollection (FField "_id" (BOid _id)) in
  match result with
  | None => throw (GraphQLError "Contact not found")
  | Some d => ret d
  end.

Definition getAppointments : Async (list Doc) := find_all CitasCollection.

(** *** Mutation *)

Definition addPatient (nombre telefono correo : string) : Async Doc :=
  let* paciente_existe :=
    findOne PacientesCollection
      (FOr (FField "correo" (BStr correo))
           (FField "telefono" (BStr telefono))) in
  match paciente_existe with
  | Some _ => throw (GraphQLError "ya existe el paciente")
  | None =>
      let fields : Doc :=
        {[ "nombre" := BStr nombre;
           "telefono" := BStr telefono;
           "correo" := BStr correo ]} in
      let* insertedId := insertOne PacientesCollection fields in
      ret (<["_id" := BOid insertedId]> fields)
  end.

Definition addAppointment (paciente fecha tipo : string) : Async Cita :=
  let* p1 := new_ObjectId (Some (GStr paciente)) in
  let* f1 := new_Date fecha in
  let* cita_existe :=
    findOne CitasCollection
      (FAnd (FField "paciente" (BOid p1))
            (FField "fecha" (BDate (bsonDate f1)))) in
  match cita_existe with
  | Some _ =>
      throw (GraphQLError
               "Ya existe una cita para este paciente en esa fecha")
  | None =>
      let* p2 := new_ObjectId (Some (GStr paciente)) in
      let* f2 := new_Date fecha in
      let* insertedId :=
        insertOne CitasCollection
          {[ "paciente" := BOid p2;
             "fecha" := BDate (bsonDate f2);
             "tipo" := BStr tipo ]} in
      let* p3 := new_ObjectId (Some (GStr paciente)) in
      let* f3 := new_Date fecha in
      ret (mkCita insertedId p3 f3 tipo)
  end.

Definition deleteAppointment (id : string) : Async bool :=
  let* _id := new_ObjectId (Some (GStr id)) in
  let* deletedCount := deleteOne CitasCollection (FField "_id" (BOid _id)) in
  if N.eqb deletedCount 0 then ret false else ret true.

(** [args] is kept as an object because the resolver destructures and
    spreads it: it reads the keys [_id] and [telefono] and sends every key
    but [_id] to the store. *)
Definition updatePatient (args : Args) : Async Doc :=
  let _id := args !! "_id" in
  let telefono := args !! "telefono" in
  let* i1 := new_ObjectId _id in
  let* paciente_existe :=
    findOne PacientesCollection (FField "_id" (BOid i1)) in
  match paciente_existe with
  | None => throw (GraphQLError "Paciente no encontrado")
  | Some _ =>
      let* _ :=
        match telefono with
        | Some (GStr s) =>
            if truthy telefono then
              let* validadotelefono := call_validar s in
              if negb validadotelefono
              then throw (GraphQLError "telefono invalido")
              else ret tt
            else ret tt
        | _ => ret tt
        end in
      let updateFields : Args := delete "_id" args in
      let* i2 := new_ObjectId _id in
      let* result :=
        findOneAndUpdate PacientesCollection (FField "_id" (BOid i2))
          (toBson <$> updateFields) in
      match result with
      | None => throw (GraphQLError "Contact not found")
      | Some d => ret d
      end
  end.

End Resolvers.

(** ** Concrete collaborators and stores, for evaluating the resolvers *)

Module Demo.

Definition hex_digit (a : ascii) : option N :=
  let n := N_of_ascii a in
  if (48 <=? n) && (n <=? 57) then Some (n - 48)
  else if (97 <=? n) && (n <=? 102) then Some (n - 87)
  else if (65 <=? n) && (n <=? 70) then Some (n - 55)
  else None.

Fixpoint hex_value (acc : N) (s : string) : option N :=
  match s with
  | EmptyString => Some acc
  | String a s' =>
      match hex_digit a with
      | Some d => hex_value (16 * acc + d) s'
      | None => None
      end
  end.

(** Twenty-four hexadecimal digits. *)
Definition hex24 (s : string) : option ObjectId :=
  if Nat.eqb (String.length s) 24 then hex_value 0 s else None.

Definition phone_char (a : ascii) : bool :=
  let n := N_of_ascii a in
  ((48 <=? n) && (n <=? 57)) || (n =? 43) || (n =? 45).

(** Non-empty, made of digits, [+] and [-]. *)
Definition phone_format (s : string) : bool :=
  negb (String.eqb s "") && forallb phone_char (list_ascii_of_string s).

(** Two calendar days; every other string is an invalid date. *)
Definition two_days (s : string) : JsDate :=
  if String.eqb s "2024-05-01" then Some 1714521600000%Z
  else if String.eqb s "2024-05-02" then Some 1714608000000%Z
  else None.

Definition date_ms (d : JsDate) : Z :=
  match d with
  | Some ms => ms
  | None => 0%Z
  end.

Definition externals : Externals :=
  {| validar := phone_format;
     ObjectId_ofString := hex24;
     Date_parse := two_days;
     bsonDate := date_ms |}.

Definition ana : Doc :=
  {[ "_id" := BOid 1; "nombre" := BStr "Ana";
     "telefono" := BStr "555-1"; "correo" := BStr "a@x.com" ]}.

Definition checkup : Doc :=
  {[ "_id" := BOid 2; "paciente" := BOid 1;
     "fecha" := BDate 1714521600000; "tipo" := BStr "checkup" ]}.

Definition id1 : string := "000000000000000000000001".
Definition id2 : string := "000000000000000000000002".

(** An empty store, the store after Ana has registered, and the store
    after her check-up has been booked. *)
Definition w0 : World := mkWorld [] [] 1 [].
Definition w1 : World := mkWorld [ana] [] 2 [].
Definition w2 : World := mkWorld [ana] [checkup] 3 [].

Definition hex_char (d : N) : ascii :=
  if d <? 10 then ascii_of_N (48 + d) else ascii_of_N (87 + d).

(** The [n] lowest hexadecimal digits of [o], most significant first. *)
Fixpoint to_hex (n : nat) (o : N) : string :=
  match n with
  | O => EmptyString
  | S n' => to_hex n' (o / 16) ++ String (hex_char (o mod 16)) EmptyString
  end.

(** A second patient, and a store that holds both. *)
Definition bob : Doc :=
  {[ "_id" := BOid 2; "nombre" := BStr "Bob";
     "telefono" := BStr "555-2"; "correo" := BStr "b@x.com" ]}.

Definition w3 : World := mkWorld [ana; bob] [] 3 [].

Definition show_date (d : JsDate) : string :=
  match d with
  | None => "Invalid Date"
  | Some ms =>
      if Z.eqb ms 1714521600000 then "2024-05-01"
      else if Z.eqb ms 1714608000000 then "2024-05-02"
      else "another day"
  end.

End Demo.

(** ** Predicates of the specification *)

(** A stored patient collides with a new one on phone or on email. *)
Definition same_phone_or_email (telefono correo : string) (d : Doc) : Prop :=
  d !! "telefono" = Some (BStr telefono) \/ d !! "correo" = Some (BStr correo).

(** Every stored [_id] was produced by the generator, and no two documents
    of a collection share one (the store's primary-key constraint). *)
Definition ids_below (next : ObjectId) (l : list Doc) : Prop :=
  Forall (fun d => exists o, doc_id d = Some o /\ o < next) l.

Definition ids_unique (l : list Doc) : Prop := NoDup (doc_id <$> l).

Definition store_ok (w : World) : Prop :=
  ids_below (nextObjectId w) (pacientes w)
  /\ ids_below (nextObjectId w) (citas w)
  /\ ids_unique (pacientes w)
  /\ ids_unique (citas w).

(** An appointment of patient [p] on the stored form of date [f]. *)
Definition same_patient_and_date `{Externals} (p : ObjectId) (f : JsDate)
  (c : Doc) : Prop :=
  c !! "paciente" = Some (BOid p)
  /\ c !! "fecha" = Some (BDate (bsonDate f)).

(** The documents built by the two inserting resolvers. *)
Definition new_patient (i : ObjectId) (nombre telefono correo : string) : Doc :=
  <["_id" := BOid i]>
    {[ "nombre" := BStr nombre;
       "telefono" := BStr telefono;
       "correo" := BStr correo ]}.

Definition new_appointment `{Externals} (i p : ObjectId) (f : JsDate)
  (tipo : string) : Doc :=
  <["_id" := BOid i]>
    {[ "paciente" := BOid p;
       "fecha" := BDate (bsonDate f);
       "tipo" := BStr tipo ]}.

(** The [args] objects the dispatcher can hand to [updatePatient]. The
    schema declares [updatePatient(id:ID!, nombre:String, telefono:String,
    correo:String)]: a non-null [id], any of the other three, and no other
    key. *)
Definition schema_updatePatient (args : Args) : Prop :=
  (exists s, args !! "id" = Some (GStr s))
  /\ forall k, is_Some (args !! k) ->
               k ∈ ["id"; "nombre"; "telefono"; "correo"].

(** The [$set] payload of [updatePatient]: [args] without its [_id]. *)
Definition update_payload (args : Args) : Doc := toBson <$> delete "_id" args.

(** The update-and-fetch of [updatePatient] and the check on its answer,
    for the identifier [o]. *)
Definition updated (o : ObjectId) (args : Args) (w : World)
  : Outcome Doc * World :=
  match update_first (matches (FField "_id" (BOid o)))
                     (set_fields (update_payload args)) (pacientes w) with
  | Some (r, l) =>
      (Return r, mkWorld l (citas w) (nextObjectId w) (validarCalls w))
  | None => (Throw (GraphQLError "Contact not found"), w)
  end.

(** Every stored patient has a phone that the validator accepts. *)
Definition phones_valid `{Externals} (w : World) : Prop :=
  forall d, d ∈ pacientes w ->
            exists t, d !! "telefono" = Some (BStr t) /\ validar t = true.

(** ** The resolvers of the types [Paciente] and [Cita] *)

(** [toString] of an [ObjectId] and of a [Date], as the type resolvers
    use them. *)
Class Printing : Type := {
  ObjectId_toString : ObjectId -> string;
  Date_toString : JsDate -> string
}.

(** [v?.toString()] of a stored value: [undefined] for null. *)
Definition Bson_toString `{Printing} (v : Bson) : option string :=
  match v with
  | BNull => None
  | BStr s => Some s
  | BOid o => Some (ObjectId_toString o)
  | BDate ms => Some (Date_toString (Some ms))
  end.

(** [Paciente.id]: [parent._id?.toString()]. *)
Definition Paciente_id `{Printing} (parent : Doc) : option string :=
  match parent !! "_id" with
  | None => None
  | Some v => Bson_toString v
  end.

(** The typed reading [Collection<Cita>] gives of a stored appointment;
    a stored datetime comes back as the [Date] of that time value. *)
Definition Cita_of_doc (d : Doc) : option Cita :=
  match d !! "_id", d !! "paciente", d !! "fecha", d !! "tipo" with
  | Some (BOid i), Some (BOid p), Some (BDate ms), Some (BStr t) =>
      Some (mkCita i p (Some ms) t)
  | _, _, _, _ => None
  end.

(** [Cita.id], [Cita.paciente] and [Cita.fecha]. *)
Definition Cita_id `{Printing} (parent : Cita) : string :=
  ObjectId_toString (cita__id parent).

Definition Cita_paciente (parent : Cita) : Async (option Doc) :=
  findOne PacientesCollection (FField "_id" (BOid (cita_paciente parent))).

Definition Cita_fecha `{Printing} (parent : Cita) : string :=
  Date_toString (cita_fecha parent).

Definition demo_printing : Printing :=
  {| ObjectId_toString := Demo.to_hex 24;
     Date_toString := Demo.show_date |}.

(** ** The operations of the schema *)

(** One request per field of [Query] and [Mutation] in [typeDefs], with
    the arguments the schema declares; the three nullable arguments of
    [updatePatient] may each be left out ([None]), null or a string. *)
Inductive Request : Type :=
  | GetPacient (id : string)
  | GetAppointments
  | AddPatient (nombre telefono correo : string)
  | AddAppointment (paciente fecha tipo : string)
  | DeleteAppointment (id : string)
  | UpdatePatient (id : string) (nombre telefono correo : option GqlValue).

Definition with_argument (k : string) (v : option GqlValue) (args : Args)
  : Args :=
  match v with
  | Some x => <[k := x]> args
  | None => args
  end.

(** The [args] object of an [updatePatient] request: a key for every
    argument that was given. *)
Definition updatePatient_args (id : string)
  (nombre telefono correo : option GqlValue) : Args :=
  with_argument "nombre" nombre
    (with_argument "telefono" telefono
       (with_argument "correo" correo {[ "id" := GStr id ]})).

(** The world after a request has been served, whatever it answered. *)
Definition dispatch `{Externals} (r : Request) (w : World) : World :=
  match r with
  | GetPacient id => (getPacient id w).2
  | GetAppointments => (getAppointments w).2
  | AddPatient nombre telefono correo =>
      (addPatient nombre telefono correo w).2
  | AddAppointment paciente fecha tipo =>
      (addAppointment paciente fecha tipo w).2
  | DeleteAppointment id => (deleteAppointment id w).2
  | UpdatePatient id nombre telefono correo =>
      (updatePatient (updatePatient_args id nombre telefono correo) w).2
  end.

(** Requests served one after the other. *)
Definition serve `{Externals} (rs : list Request) (w : World) : World :=
  fold_left (fun w r => dispatch r w) rs w.

(** A day of requests against the empty store. *)
Definition demo_day : list Request :=
  [ AddPatient "Ana" "555-1" "a@x.com";
    AddAppointment Demo.id1 "2024-05-01" "checkup";
    UpdatePatient Demo.id1 (Some (GStr "Ann")) (Some (GStr "abc")) None;
    AddPatient "Bob" "555-1" "b@x.com";
    GetPacient Demo.id1;
    DeleteAppointment Demo.id2;
    GetAppointments ].

(** ** The uniqueness invariants *)

Fixpoint pairwise {A : Type} (R : A -> A -> Prop) (l : list A) : Prop :=
  match l with
  | [] => True
  | x :: l' => Forall (R x) l' /\ pairwise R l'
  end.

(** Two patient documents with the same phone or the same email. *)
Definition patients_collide (d1 d2 : Doc) : Prop :=
  (exists t, d1 !! "telefono" = Some (BStr t)
             /\ d2 !! "telefono" = Some (BStr t))
  \/ (exists c, d1 !! "correo" = Some (BStr c)
                /\ d2 !! "correo" = Some (BStr c)).

(** Two appointment documents with the same patient and stored date. *)
Definition appointments_collide (c1 c2 : Doc) : Prop :=
  exists p ms,
    c1 !! "paciente" = Some (BOid p) /\ c1 !! "fecha" = Some (BDate ms)
    /\ c2 !! "paciente" = Some (BOid p) /\ c2 !! "fecha" = Some (BDate ms).

Definition patients_distinct (w : World) : Prop :=
  pairwise (fun d1 d2 => ~ patients_collide d1 d2) (pacientes w).

Definition appointments_distinct (w : World) : Prop :=
  pairwise (fun c1 c2 => ~ appointments_collide c1 c2) (citas w).

(** ** Two [addPatient] calls in flight *)

(** [addPatient] up to its first [await] and from there on. *)
Definition addPatient_check (telefono correo : string) : Async (option Doc) :=
  findOne PacientesCollection
    (FOr (FField "correo" (BStr correo))
         (FField "telefono" (BStr telefono))).

Definition addPatient_insert (nombre telefono correo : string)
  (paciente_existe : option Doc) : Async Doc :=
  match paciente_existe with
  | Some _ => throw (GraphQLError "ya existe el paciente")
  | None =>
      let fields : Doc :=
        {[ "nombre" := BStr nombre;
           "telefono" := BStr telefono;
           "correo" := BStr correo ]} in
      let* insertedId := insertOne PacientesCollection fields in
      ret (<["_id" := BOid insertedId]> fields)
  end.

(** Two calls whose checks are both answered before either inserts. *)
Definition addPatient_twice_interleaved
  (n1 t1 c1 n2 t2 c2 : string) : Async (Doc * Doc) :=
  let* e1 := addPatient_check t1 c1 in
  let* e2 := addPatient_check t2 c2 in
  let* p1 := addPatient_insert n1 t1 c1 e1 in
  let* p2 := addPatient_insert n2 t2 c2 e2 in
  ret (p1, p2).

(** ** The store primitives *)

Section StoreLemmas.

Implicit Types (p : Doc -> bool) (l : list Doc) (d : Doc).

Lemma matches_by_id (o : ObjectId) d :
  matches (FField "_id" (BOid o)) d = true <-> doc_id d = Some o.
Proof.
  unfold doc_id. simpl. rewrite bool_decide_eq_true.
  split.
  - intros ->. reflexivity.
  - destruct (d !! "_id") as [[]|]; congruence.
Qed.

Lemma find_None_elem p l :
  find p l = None <-> (forall d, d ∈ l -> p d = false).
Proof.
  induction l as [|x l IH]; simpl.
  - split; [intros _ d Hd; inversion Hd | reflexivity].
  - destruct (p x) eqn:Hx.
    + split; [discriminate|].
      intros Hall. rewrite (Hall x) in Hx by constructor. discriminate.
    + rewrite IH. split.
      * intros Hall d Hd. inversion Hd; subst; auto.
      * intros Hall d Hd. apply Hall. now constructor.
Qed.

Lemma find_Some_split p l d :
  find p l = Some d ->
  exists l1 l2, l = l1 ++ d :: l2
                /\ (forall x, x ∈ l1 -> p x = false) /\ p d = true.
Proof.
  induction l as [|x l IH]; simpl; [discriminate|].
  destruct (p x) eqn:Hx.
  - intros [= ->]. exists [], l. repeat split; auto.
    intros y Hy. inversion Hy.
  - intros Hf. destruct (IH Hf) as (l1 & l2 & -> & Hl1 & Hd).
    exists (x :: l1), l2. repeat split; auto.
    intros y Hy. inversion Hy; subst; auto.
Qed.

Lemma find_skip p l1 d l2 :
  (forall x, x ∈ l1 -> p x = false) -> p d = true ->
  find p (l1 ++ d :: l2) = Some d.
Proof.
  intros Hl1 Hd. induction l1 as [|x l1 IH]; simpl.
  - now rewrite Hd.
  - rewrite (Hl1 x) by constructor. apply IH.
    intros y Hy. apply Hl1. now constructor.
Qed.

Lemma delete_first_skip p l1 d l2 :
  (forall x, x ∈ l1 -> p x = false) -> p d = true ->
  delete_first p (l1 ++ d :: l2) = Some (l1 ++ l2).
Proof.
  intros Hl1 Hd. induction l1 as [|x l1 IH]; simpl.
  - now rewrite Hd.
  - rewrite (Hl1 x) by constructor. rewrite IH; [reflexivity|].
    intros y Hy. apply Hl1. now constructor.
Qed.

Lemma delete_first_None p l :
  (forall d, d ∈ l -> p d = false) -> delete_first p l = None.
Proof.
  induction l as [|x l IH]; simpl; [reflexivity|]. intros Hall.
  rewrite (Hall x) by constructor. rewrite IH; [reflexivity|].
  intros d Hd. apply Hall. now constructor.
Qed.

Lemma update_first_skip p (f : Doc -> Doc) l1 d l2 :
  (forall x, x ∈ l1 -> p x = false) -> p d = true ->
  update_first p f (l1 ++ d :: l2) = Some (f d, l1 ++ f d :: l2).
Proof.
  intros Hl1 Hd. induction l1 as [|x l1 IH]; simpl.
  - now rewrite Hd.
  - rewrite (Hl1 x) by constructor. rewrite IH; [reflexivity|].
    intros y Hy. apply Hl1. now constructor.
Qed.

Lemma update_first_None p (f : Doc -> Doc) l :
  (forall d, d ∈ l -> p d = false) -> update_first p f l = None.
Proof.
  induction l as [|x l IH]; simpl; [reflexivity|]. intros Hall.
  rewrite (Hall x) by constructor. rewrite IH; [reflexivity|].
  intros d Hd. apply Hall. now constructor.
Qed.

(** Below the generator's next value means never equal to it. *)
Lemma ids_below_fresh next l d :
  ids_below next l -> d ∈ l -> doc_id d <> Some next.
Proof.
  intros Hb Hd. unfold ids_below in Hb. rewrite Forall_forall in Hb.
  destruct (Hb d Hd) as (o & Ho & Hlt). rewrite Ho. intros [= ->]. lia.
Qed.

Lemma ids_below_find_next next l :
  ids_below next l -> find (matches (FField "_id" (BOid next))) l = None.
Proof.
  intros Hb. apply find_None_elem. intros d Hd.
  destruct (matches _ d) eqn:Hm; [|reflexivity].
  apply matches_by_id in Hm.
  now apply (ids_below_fresh _ _ _ Hb Hd) in Hm.
Qed.

(** With unique identifiers, the documents around the one that carries
    [o] do not carry it. *)
Lemma ids_unique_split l1 d l2 (o : ObjectId) :
  ids_unique (l1 ++ d :: l2) -> doc_id d = Some o ->
  forall x, x ∈ l1 ++ l2 -> matches (FField "_id" (BOid o)) x = false.
Proof.
  unfold ids_unique. rewrite fmap_app, fmap_cons.
  intros Hnd Hd x Hx.
  apply NoDup_app in Hnd as (_ & Hdisj & Hnd2).
  apply NoDup_cons in Hnd2 as (Hnotin & _).
  destruct (matches _ x) eqn:Hm; [|reflexivity].
  apply matches_by_id in Hm. exfalso.
  apply elem_of_app in Hx as [Hx|Hx].
  - apply (Hdisj (doc_id x)).
    + now apply list_elem_of_fmap_2.
    + rewrite Hm, <- Hd. constructor.
  - apply Hnotin. rewrite Hd, <- Hm. now apply list_elem_of_fmap_2.
Qed.

End StoreLemmas.

(** ** What each resolver computes *)

Section Runs.

Context `{Externals}.

Lemma doc_id_insert (i : ObjectId) (d : Doc) :
  doc_id (<["_id" := BOid i]> d) = Some i.
Proof. unfold doc_id. now rewrite lookup_insert_eq. Qed.

Lemma matches_phone_or_email (telefono correo : string) (d : Doc) :
  matches (FOr (FField "correo" (BStr correo))
               (FField "telefono" (BStr telefono))) d = true
  <-> same_phone_or_email telefono correo d.
Proof.
  unfold same_phone_or_email. simpl.
  rewrite orb_true_iff, !bool_decide_eq_true. tauto.
Qed.

Lemma matches_patient_and_date (p : ObjectId) (f : JsDate) (c : Doc) :
  matches (FAnd (FField "paciente" (BOid p))
                (FField "fecha" (BDate (bsonDate f)))) c = true
  <-> same_patient_and_date p f c.
Proof.
  unfold same_patient_and_date. simpl.
  rewrite andb_true_iff, !bool_decide_eq_true. tauto.
Qed.

(** Turning "some stored document satisfies [P]" and "none does" into
    the answer of [find]. *)
Lemma find_of_exists (q : Filter) (P : Doc -> Prop) (l : list Doc) :
  (forall d, matches q d = true <-> P d) ->
  (exists d, d ∈ l /\ P d) -> exists d, find (matches q) l = Some d.
Proof.
  intros HP (d & Hd & HPd).
  destruct (find (matches q) l) as [x|] eqn:Hf; [eauto|].
  rewrite find_None_elem in Hf. apply HP in HPd.
  rewrite (Hf d Hd) in HPd. discriminate.
Qed.

Lemma find_of_forall (q : Filter) (P : Doc -> Prop) (l : list Doc) :
  (forall d, matches q d = true <-> P d) ->
  (forall d, d ∈ l -> ~ P d) -> find (matches q) l = None.
Proof.
  intros HP Hall. apply find_None_elem. intros d Hd.
  destruct (matches q d) eqn:Hm; [|reflexivity].
  apply HP in Hm. now apply Hall in Hm.
Qed.

Lemma addPatient_run (nombre telefono correo : string) (w : World) :
  addPatient nombre telefono correo w =
  match find (matches (FOr (FField "correo" (BStr correo))
                           (FField "telefono" (BStr telefono))))
             (pacientes w) with
  | Some _ => (Throw (GraphQLError "ya existe el paciente"), w)
  | None =>
      let p := new_patient (nextObjectId w) nombre telefono correo in
      (Return p,
       mkWorld (pacientes w ++ [p]) (citas w) (nextObjectId w + 1)
               (validarCalls w))
  end.
Proof.
  unfold addPatient, bind, findOne. simpl.
  destruct (find _ (pacientes w)); reflexivity.
Qed.

Lemma addAppointment_run (paciente fecha tipo : string) (w : World) :
  addAppointment paciente fecha tipo w =
  match ObjectId_ofString paciente with
  | None => (Throw BSONError, w)
  | Some p =>
      let f := Date_parse fecha in
      match find (matches (FAnd (FField "paciente" (BOid p))
                                (FField "fecha" (BDate (bsonDate f)))))
                 (citas w) with
      | Some _ =>
          (Throw (GraphQLError
                    "Ya existe una cita para este paciente en esa fecha"),
           w)
      | None =>
          (Return (mkCita (nextObjectId w) p f tipo),
           mkWorld (pacientes w)
                   (citas w ++ [new_appointment (nextObjectId w) p f tipo])
                   (nextObjectId w + 1) (validarCalls w))
      end
  end.
Proof.
  unfold addAppointment, bind, new_ObjectId, new_Date, findOne, ret, throw.
  simpl. destruct (ObjectId_ofString paciente) as [p|]; [|reflexivity].
  simpl. destruct (find _ (citas w)); [reflexivity|].
  unfold insertOne, bind, generate. reflexivity.
Qed.

Lemma addAppointment_run_id
  (paciente fecha tipo : string) (p : ObjectId) (w : World) :
  ObjectId_ofString paciente = Some p ->
  addAppointment paciente fecha tipo w =
  match find (matches (FAnd (FField "paciente" (BOid p))
                            (FField "fecha"
                               (BDate (bsonDate (Date_parse fecha))))))
             (citas w) with
  | Some _ =>
      (Throw (GraphQLError
                "Ya existe una cita para este paciente en esa fecha"),
       w)
  | None =>
      (Return (mkCita (nextObjectId w) p (Date_parse fecha) tipo),
       mkWorld (pacientes w)
               (citas w ++ [new_appointment (nextObjectId w) p
                              (Date_parse fecha) tipo])
               (nextObjectId w + 1) (validarCalls w))
  end.
Proof. intros Hp. rewrite addAppointment_run, Hp. reflexivity. Qed.

Lemma deleteAppointment_run (id : string) (w : World) :
  deleteAppointment id w =
  match ObjectId_ofString id with
  | None => (Throw BSONError, w)
  | Some o =>
      match delete_first (matches (FField "_id" (BOid o))) (citas w) with
      | Some l =>
          (Return true,
           mkWorld (pacientes w) l (nextObjectId w) (validarCalls w))
      | None => (Return false, w)
      end
  end.
Proof.
  unfold deleteAppointment, bind, new_ObjectId, deleteOne, ret, throw.
  destruct (ObjectId_ofString id) as [o|]; [|reflexivity].
  simpl. destruct (delete_first _ (citas w)); reflexivity.
Qed.

Lemma getPacient_run (id : string) (w : World) :
  getPacient id w =
  match ObjectId_ofString id with
  | None => (Throw BSONError, w)
  | Some o =>
      match find (matches (FField "_id" (BOid o))) (pacientes w) with
      | Some d => (Return d, w)
      | None => (Throw (GraphQLError "Contact not found"), w)
      end
  end.
Proof.
  unfold getPacient, bind, new_ObjectId, findOne, ret, throw.
  destruct (ObjectId_ofString id) as [o|]; [|reflexivity].
  simpl. destruct (find _ (pacientes w)); reflexivity.
Qed.

(** Inserting under the generator's identifier keeps the store sound. *)
Lemma ids_below_snoc (next : ObjectId) (l : list Doc) (d : Doc) :
  ids_below next l -> doc_id d = Some next -> ids_below (next + 1) (l ++ [d]).
Proof.
  unfold ids_below. intros Hb Hd. apply Forall_app. split.
  - eapply Forall_impl; [exact Hb|]. intros x (o & Ho & Hlt).
    exists o. split; [exact Ho|lia].
  - constructor; [|constructor]. exists next. split; [exact Hd|lia].
Qed.

Lemma ids_below_succ (next : ObjectId) (l : list Doc) :
  ids_below next l -> ids_below (next + 1) l.
Proof.
  unfold ids_below. intros Hb. eapply Forall_impl; [exact Hb|].
  intros x (o & Ho & Hlt). exists o. split; [exact Ho|lia].
Qed.

Lemma ids_unique_snoc (next : ObjectId) (l : list Doc) (d : Doc) :
  ids_below next l -> ids_unique l -> doc_id d = Some next ->
  ids_unique (l ++ [d]).
Proof.
  unfold ids_unique. intros Hb Hu Hd. rewrite fmap_app. simpl.
  apply NoDup_app. split; [exact Hu|]. split.
  - intros o Ho Hin. apply list_elem_of_singleton in Hin. subst o.
    apply list_elem_of_fmap in Ho as (x & Hx & Hxl).
    rewrite Hd in Hx. symmetry in Hx.
    now apply (ids_below_fresh _ _ _ Hb Hxl) in Hx.
  - apply NoDup_singleton.
Qed.

End Runs.

(** ** Creating patients and appointments, deleting appointments *)

Section CreateAndDelete.

Context `{Externals}.

(** C1. [addPatient] on any (name, phone, email): when some stored
    patient has the same phone or the same email, whatever its other
    fields, the call throws "ya existe el paciente" (the Conflict
    failure) and leaves the store as it was; when none has, it appends
    exactly one document to the patients collection and returns that
    document: its [_id] is the identifier the store has just assigned,
    carried by no patient stored before, and its name, phone and email
    are the ones given. *)
Theorem addPatient_conflict_or_insert
  (w : World) (nombre telefono correo : string) :
  ((exists d, d ∈ pacientes w /\ same_phone_or_email telefono correo d) ->
   addPatient nombre telefono correo w
   = (Throw (GraphQLError "ya existe el paciente"), w))
  /\ ((forall d, d ∈ pacientes w -> ~ same_phone_or_email telefono correo d) ->
      exists (p : Doc) (w' : World),
        addPatient nombre telefono correo w = (Return p, w')
        /\ pacientes w' = pacientes w ++ [p]
        /\ citas w' = citas w
        /\ doc_id p = Some (nextObjectId w)
        /\ p !! "nombre" = Some (BStr nombre)
        /\ p !! "telefono" = Some (BStr telefono)
        /\ p !! "correo" = Some (BStr correo)
        /\ (store_ok w ->
            forall d, d ∈ pacientes w -> doc_id d <> doc_id p)).
Proof.
  rewrite addPatient_run. split.
  - intros Hex.
    destruct (find_of_exists _ _ _ (matches_phone_or_email telefono correo) Hex)
      as [d ->].
    reflexivity.
  - intros Hall.
    rewrite (find_of_forall _ _ _ (matches_phone_or_email telefono correo) Hall).
    eexists _, _. split; [reflexivity|]. simpl.
    split; [reflexivity|]. split; [reflexivity|].
    split; [apply doc_id_insert|].
    split; [unfold new_patient; now simplify_map_eq|].
    split; [unfold new_patient; now simplify_map_eq|].
    split; [unfold new_patient; now simplify_map_eq|].
    intros (Hb & _) d Hd. unfold new_patient. rewrite doc_id_insert.
    now apply (ids_below_fresh _ _ _ Hb).
Qed.

(** C2. [addAppointment] on any (patientRef, date, type) whose
    patientRef is a well-formed identifier: when an appointment with the
    same patient reference and the same parsed date is stored, whatever
    its type, the call throws "Ya existe una cita para este paciente en
    esa fecha" (the Conflict failure) and inserts nothing; when none is,
    it appends one appointment and returns it with the identifier the
    store assigned. After such a success, the same call again, with any
    type, is a Conflict, while a call for the same patient on a date
    that is stored differently and is not yet booked succeeds. *)
Theorem addAppointment_conflict_or_insert
  (w : World) (paciente fecha tipo : string) (p : ObjectId) :
  ObjectId_ofString paciente = Some p ->
  ((exists c, c ∈ citas w /\ same_patient_and_date p (Date_parse fecha) c) ->
   addAppointment paciente fecha tipo w
   = (Throw (GraphQLError
               "Ya existe una cita para este paciente en esa fecha"), w))
  /\ ((forall c, c ∈ citas w ->
                 ~ same_patient_and_date p (Date_parse fecha) c) ->
      let i := nextObjectId w in
      let w' :=
        mkWorld (pacientes w)
                (citas w ++ [new_appointment i p (Date_parse fecha) tipo])
                (i + 1) (validarCalls w) in
      addAppointment paciente fecha tipo w
      = (Return (mkCita i p (Date_parse fecha) tipo), w')
      /\ (store_ok w -> forall c, c ∈ citas w -> doc_id c <> Some i)
      /\ (forall tipo',
            addAppointment paciente fecha tipo' w'
            = (Throw (GraphQLError
                        "Ya existe una cita para este paciente en esa fecha"),
               w'))
      /\ (forall fecha' tipo',
            bsonDate (Date_parse fecha') <> bsonDate (Date_parse fecha) ->
            (forall c, c ∈ citas w ->
                       ~ same_patient_and_date p (Date_parse fecha') c) ->
            addAppointment paciente fecha' tipo' w'
            = (Return (mkCita (i + 1) p (Date_parse fecha') tipo'),
               mkWorld (pacientes w)
                       (citas w' ++ [new_appointment (i + 1) p
                                       (Date_parse fecha') tipo'])
                       (i + 1 + 1) (validarCalls w)))).
Proof.
  intros Hp. split.
  - intros Hex. rewrite (addAppointment_run_id _ _ _ _ _ Hp).
    destruct (find_of_exists _ _ _
                (matches_patient_and_date p (Date_parse fecha)) Hex)
      as [c ->].
    reflexivity.
  - intros Hall i w'.
    assert (Hnew : same_patient_and_date p (Date_parse fecha)
                     (new_appointment i p (Date_parse fecha) tipo)).
    { unfold same_patient_and_date, new_appointment.
      split; now simplify_map_eq. }
    split; [|split; [|split]].
    + rewrite (addAppointment_run_id _ _ _ _ _ Hp).
      now rewrite (find_of_forall _ _ _
                     (matches_patient_and_date p (Date_parse fecha)) Hall).
    + intros (_ & Hb & _) c Hc. now apply (ids_below_fresh _ _ _ Hb).
    + intros tipo'. rewrite (addAppointment_run_id _ _ _ _ _ Hp).
      assert (Hex : exists c, c ∈ citas w'
                              /\ same_patient_and_date p (Date_parse fecha) c).
      { eexists. split; [|exact Hnew]. subst w'. simpl.
        apply elem_of_app. right. constructor. }
      destruct (find_of_exists _ _ _
                  (matches_patient_and_date p (Date_parse fecha)) Hex)
        as [c ->].
      reflexivity.
    + intros fecha' tipo' Hne Hall'.
      rewrite (addAppointment_run_id _ _ _ _ _ Hp).
      rewrite (find_of_forall _ _ _
                 (matches_patient_and_date p (Date_parse fecha'))).
      * reflexivity.
      * intros c Hc. apply elem_of_app in Hc as [Hc|Hc].
        { now apply Hall'. }
        apply list_elem_of_singleton in Hc. subst c.
        intros (_ & Hf). destruct Hnew as (_ & Hf').
        rewrite Hf' in Hf. congruence.
Qed.

(** C6, as the code has it. A date string that does not parse is not
    rejected: [new Date] yields an invalid date and the resolver goes
    on with it. With a well-formed patientRef the call throws the
    Conflict failure, inserting nothing, when an appointment of that
    patient with the stored form of the invalid date exists, and
    otherwise appends one appointment holding that stored form and
    returns it with its assigned identifier. *)
Theorem addAppointment_unparseable_date
  (w : World) (paciente fecha tipo : string) (p : ObjectId) :
  ObjectId_ofString paciente = Some p ->
  Date_parse fecha = None ->
  ((exists c, c ∈ citas w /\ same_patient_and_date p None c) ->
   addAppointment paciente fecha tipo w
   = (Throw (GraphQLError
               "Ya existe una cita para este paciente en esa fecha"), w))
  /\ ((forall c, c ∈ citas w -> ~ same_patient_and_date p None c) ->
      addAppointment paciente fecha tipo w
      = (Return (mkCita (nextObjectId w) p None tipo),
         mkWorld (pacientes w)
                 (citas w ++ [new_appointment (nextObjectId w) p None tipo])
                 (nextObjectId w + 1) (validarCalls w))).
Proof.
  intros Hp Hf. rewrite (addAppointment_run_id _ _ _ _ _ Hp), Hf. split.
  - intros Hex.
    destruct (find_of_exists _ _ _ (matches_patient_and_date p None) Hex)
      as [c ->].
    reflexivity.
  - intros Hall.
    now rewrite (find_of_forall _ _ _ (matches_patient_and_date p None) Hall).
Qed.

(** C7. [deleteAppointment] on a well-formed identifier, in a store
    whose appointments have distinct identifiers: when no appointment
    carries the identifier the call returns [false], throws nothing and
    changes nothing; when one does, the call returns [true] and removes
    exactly that document, after which no appointment carries the
    identifier and the same call returns [false]. *)
Theorem deleteAppointment_true_iff_removed
  (w : World) (id : string) (o : ObjectId) :
  ObjectId_ofString id = Some o ->
  ids_unique (citas w) ->
  ((forall c, c ∈ citas w -> doc_id c <> Some o) ->
   deleteAppointment id w = (Return false, w))
  /\ (forall c, c ∈ citas w -> doc_id c = Some o ->
      exists (l1 l2 : list Doc) (w' : World),
        citas w = l1 ++ c :: l2
        /\ deleteAppointment id w = (Return true, w')
        /\ citas w' = l1 ++ l2
        /\ pacientes w' = pacientes w
        /\ (forall x, x ∈ citas w' -> doc_id x <> Some o)
        /\ deleteAppointment id w' = (Return false, w')).
Proof.
  intros Ho Hu. split.
  - intros Hall. rewrite deleteAppointment_run, Ho.
    rewrite delete_first_None; [reflexivity|].
    intros c Hc. destruct (matches _ c) eqn:Hm; [|reflexivity].
    apply matches_by_id in Hm. now apply Hall in Hm.
  - intros c Hc Hid.
    destruct (list_elem_of_split _ _ Hc) as (l1 & l2 & Hsplit).
    rewrite Hsplit in Hu.
    pose proof (ids_unique_split _ _ _ _ Hu Hid) as Hrest.
    assert (Hc' : matches (FField "_id" (BOid o)) c = true)
      by now apply matches_by_id.
    exists l1, l2,
      (mkWorld (pacientes w) (l1 ++ l2) (nextObjectId w) (validarCalls w)).
    split; [exact Hsplit|].
    split.
    { rewrite deleteAppointment_run, Ho, Hsplit.
      rewrite delete_first_skip; [reflexivity| |exact Hc'].
      intros x Hx. apply Hrest. apply elem_of_app. now left. }
    split; [reflexivity|]. split; [reflexivity|]. split.
    { simpl. intros x Hx Hxo. apply matches_by_id in Hxo.
      rewrite (Hrest x Hx) in Hxo. discriminate. }
    rewrite deleteAppointment_run, Ho. simpl.
    rewrite delete_first_None; [reflexivity|exact Hrest].
Qed.

End CreateAndDelete.

(** ** Updating a patient *)

Section UpdatePatient.

Context `{Externals}.

Lemma update_payload_id (args : Args) : update_payload args !! "_id" = None.
Proof. unfold update_payload. now rewrite lookup_fmap, lookup_delete_eq. Qed.

Lemma update_payload_other (args : Args) (k : string) :
  k <> "_id" -> update_payload args !! k = toBson <$> args !! k.
Proof.
  intros Hk. unfold update_payload.
  now rewrite lookup_fmap, lookup_delete_ne.
Qed.

Lemma set_fields_payload_id (args : Args) (d : Doc) :
  doc_id (set_fields (update_payload args) d) = doc_id d.
Proof.
  unfold doc_id, set_fields.
  now rewrite lookup_union_r by apply update_payload_id.
Qed.

(** The resolver when [args._id] is a well-formed identifier string. *)
Lemma updatePatient_run_id (args : Args) (s : string) (o : ObjectId)
  (w : World) :
  args !! "_id" = Some (GStr s) ->
  ObjectId_ofString s = Some o ->
  updatePatient args w =
  match find (matches (FField "_id" (BOid o))) (pacientes w) with
  | None => (Throw (GraphQLError "Paciente no encontrado"), w)
  | Some _ =>
      match args !! "telefono" with
      | Some (GStr t) =>
          if String.eqb t "" then updated o args w
          else if validar t then updated o args (asked t w)
          else (Throw (GraphQLError "telefono invalido"), asked t w)
      | _ => updated o args w
      end
  end.
Proof.
  intros Hid Ho.
  unfold updatePatient, bind, new_ObjectId, findOne, ret, throw.
  rewrite Hid, Ho. simpl.
  destruct (find _ (pacientes w)); [|reflexivity].
  unfold updated, update_payload, findOneAndUpdate, call_validar.
  destruct (args !! "telefono") as [[|t]|]; simpl.
  - destruct (update_first _ _ _) as [[r l]|]; reflexivity.
  - destruct (String.eqb t ""); simpl.
    + destruct (update_first _ _ _) as [[r l]|]; reflexivity.
    + destruct (validar t); simpl; [|reflexivity].
      destruct (update_first _ _ _) as [[r l]|]; reflexivity.
  - destruct (update_first _ _ _) as [[r l]|]; reflexivity.
Qed.

(** The resolver when [args] has no [_id]: the identifier it looks for
    is one the generator has only just produced. *)
Lemma updatePatient_run_no_id (args : Args) (w : World) :
  (forall s, args !! "_id" <> Some (GStr s)) ->
  ids_below (nextObjectId w) (pacientes w) ->
  updatePatient args w
  = (Throw (GraphQLError "Paciente no encontrado"),
     mkWorld (pacientes w) (citas w) (nextObjectId w + 1) (validarCalls w)).
Proof.
  intros Hid Hb.
  unfold updatePatient, bind, new_ObjectId.
  assert (Hgen : match args !! "_id" with
                 | Some GNull | None => generate
                 | Some (GStr s) =>
                     match ObjectId_ofString s with
                     | Some o => ret o
                     | None => throw BSONError
                     end
                 end = generate).
  { destruct (args !! "_id") as [[|s]|]; try reflexivity.
    now destruct (Hid s). }
  rewrite Hgen. unfold generate, findOne, throw. cbn [docs pacientes].
  now rewrite (ids_below_find_next _ _ Hb).
Qed.

Lemma updated_split (o : ObjectId) (args : Args) (w : World)
  (l1 l2 : list Doc) (stored : Doc) :
  pacientes w = l1 ++ stored :: l2 ->
  doc_id stored = Some o ->
  ids_unique (pacientes w) ->
  updated o args w
  = (Return (set_fields (update_payload args) stored),
     mkWorld (l1 ++ set_fields (update_payload args) stored :: l2)
             (citas w) (nextObjectId w) (validarCalls w)).
Proof.
  intros Hsplit Hid Hu. unfold updated. rewrite Hsplit in *.
  rewrite update_first_skip; [reflexivity| |now apply matches_by_id].
  intros x Hx. apply (ids_unique_split _ _ _ _ Hu Hid).
  apply elem_of_app. now left.
Qed.

(** The update-and-fetch finds nothing, for instance after the patient has
    been deleted in between: the answer is "Contact not found". *)
Lemma updated_missing (o : ObjectId) (args : Args) (w : World) :
  (forall d, d ∈ pacientes w -> doc_id d <> Some o) ->
  updated o args w = (Throw (GraphQLError "Contact not found"), w).
Proof.
  intros Hnone. unfold updated.
  rewrite update_first_None; [reflexivity|].
  intros d Hd. destruct (matches _ d) eqn:Hm; [|reflexivity].
  apply matches_by_id in Hm. now apply Hnone in Hm.
Qed.

Lemma updated_calls (o : ObjectId) (args : Args) (w : World) :
  validarCalls (updated o args w).2 = validarCalls w.
Proof.
  unfold updated. destruct (update_first _ _ _) as [[r l]|]; reflexivity.
Qed.

(** The resolver called with the identifier under [_id], which the
    dispatcher never does. On any [args] that names a stored patient by
    its [_id] and passes the phone check: the [$set] payload is [args]
    without [_id], so the identifier is never in it; the call returns
    the stored document merged with the payload and puts it in the
    stored document's place. In that document the identifier is the
    stored one, each supplied field has the supplied value, and every
    field that [args] does not supply has its prior stored value. *)
Theorem updatePatient_partial_merge
  (w : World) (args : Args) (s : string) (o : ObjectId)
  (stored : Doc) (l1 l2 : list Doc) :
  args !! "_id" = Some (GStr s) ->
  ObjectId_ofString s = Some o ->
  pacientes w = l1 ++ stored :: l2 ->
  doc_id stored = Some o ->
  ids_unique (pacientes w) ->
  (forall t, args !! "telefono" = Some (GStr t) -> t <> "" ->
             validar t = true) ->
  exists (r : Doc) (w' : World),
    updatePatient args w = (Return r, w')
    /\ r = set_fields (update_payload args) stored
    /\ pacientes w' = l1 ++ r :: l2
    /\ citas w' = citas w
    /\ update_payload args !! "_id" = None
    /\ r !! "_id" = stored !! "_id"
    /\ (forall k v, k <> "_id" -> args !! k = Some v ->
                    r !! k = Some (toBson v))
    /\ (forall k, args !! k = None -> r !! k = stored !! k).
Proof.
  intros Hid Ho Hsplit Hdoc Hu Hphone.
  exists (set_fields (update_payload args) stored).
  assert (Hfind : find (matches (FField "_id" (BOid o))) (pacientes w)
                  = Some stored).
  { rewrite Hsplit. apply find_skip; [|now apply matches_by_id].
    intros x Hx. rewrite Hsplit in Hu.
    apply (ids_unique_split _ _ _ _ Hu Hdoc). apply elem_of_app. now left. }
  assert (Hrun : exists w',
             updatePatient args w
             = (Return (set_fields (update_payload args) stored), w')
             /\ pacientes w'
                = l1 ++ set_fields (update_payload args) stored :: l2
             /\ citas w' = citas w).
  { rewrite (updatePatient_run_id _ _ _ _ Hid Ho), Hfind.
    destruct (args !! "telefono") as [[|t]|] eqn:Ht.
    - rewrite (updated_split _ _ _ _ _ _ Hsplit Hdoc Hu). eauto.
    - destruct (String.eqb t "") eqn:Hempty.
      + rewrite (updated_split _ _ _ _ _ _ Hsplit Hdoc Hu). eauto.
      + apply String.eqb_neq in Hempty. rewrite (Hphone t eq_refl Hempty).
        rewrite (updated_split o args (asked t w) l1 l2 stored);
          [eauto|exact Hsplit|exact Hdoc|exact Hu].
    - rewrite (updated_split _ _ _ _ _ _ Hsplit Hdoc Hu). eauto. }
  destruct Hrun as (w' & Hrun & Hp & Hc).
  exists w'. split; [exact Hrun|]. split; [reflexivity|].
  split; [exact Hp|]. split; [exact Hc|].
  split; [apply update_payload_id|].
  unfold set_fields. split; [|split].
  - now rewrite lookup_union_r by apply update_payload_id.
  - intros k v Hk Hv. apply lookup_union_Some_l.
    now rewrite update_payload_other, Hv.
  - intros k Hk. apply lookup_union_r.
    unfold update_payload. rewrite lookup_fmap.
    destruct (decide (k = "_id")) as [->|Hne].
    + now rewrite lookup_delete_eq.
    + now rewrite lookup_delete_ne, Hk.
Qed.

(** The resolver called with the identifier under [_id], which the
    dispatcher never does. On a stored patient named by [_id]: a phone
    that is supplied as a non-empty string is sent to
    the validator, whatever the stored phone is, and when the validator
    rejects it the call throws "telefono invalido" (the InvalidArgument
    failure) with both collections as they were; a phone that is
    omitted, null or the empty string is not sent to the validator. *)
Theorem updatePatient_phone_check
  (w : World) (args : Args) (s : string) (o : ObjectId) (stored : Doc) :
  args !! "_id" = Some (GStr s) ->
  ObjectId_ofString s = Some o ->
  stored ∈ pacientes w ->
  doc_id stored = Some o ->
  (forall t, args !! "telefono" = Some (GStr t) -> t <> "" ->
     validarCalls (updatePatient args w).2 = validarCalls w ++ [t]
     /\ (validar t = false ->
         updatePatient args w
         = (Throw (GraphQLError "telefono invalido"), asked t w)
         /\ pacientes (asked t w) = pacientes w
         /\ citas (asked t w) = citas w))
  /\ ((args !! "telefono" = None
       \/ args !! "telefono" = Some GNull
       \/ args !! "telefono" = Some (GStr "")) ->
      validarCalls (updatePatient args w).2 = validarCalls w).
Proof.
  intros Hid Ho Hin Hdoc.
  assert (Hfind : exists d, find (matches (FField "_id" (BOid o)))
                                 (pacientes w) = Some d).
  { apply (find_of_exists _ (fun d => doc_id d = Some o)).
    - intros d. apply matches_by_id.
    - eauto. }
  destruct Hfind as [d Hfind].
  rewrite (updatePatient_run_id _ _ _ _ Hid Ho), Hfind.
  split.
  - intros t Ht Hne. rewrite Ht.
    apply String.eqb_neq in Hne. rewrite Hne.
    destruct (validar t); split; try discriminate.
    + now rewrite updated_calls.
    + reflexivity.
    + intros _. repeat split.
  - intros [Ht|[Ht|Ht]]; rewrite Ht; simpl; apply updated_calls.
Qed.

(** C10. In [updatePatient] the existence check comes before the phone
    check. When the identifier the resolver looks up belongs to no
    stored patient, the call throws "Paciente no encontrado" (the
    NotFound failure) whatever phone is supplied, also one the validator
    would reject, and it has not asked the validator: the record of
    validator calls and both collections are as before. This holds for
    a well-formed [_id] of no stored patient and for [args] without
    [_id]. *)
Theorem updatePatient_existence_check_first (w : World) (args : Args) :
  (forall (s : string) (o : ObjectId),
     args !! "_id" = Some (GStr s) ->
     ObjectId_ofString s = Some o ->
     (forall d, d ∈ pacientes w -> doc_id d <> Some o) ->
     updatePatient args w
     = (Throw (GraphQLError "Paciente no encontrado"), w))
  /\ (args !! "_id" = None ->
      ids_below (nextObjectId w) (pacientes w) ->
      exists w',
        updatePatient args w
        = (Throw (GraphQLError "Paciente no encontrado"), w')
        /\ validarCalls w' = validarCalls w
        /\ pacientes w' = pacientes w
        /\ citas w' = citas w).
Proof.
  split.
  - intros s o Hid Ho Hnone.
    rewrite (updatePatient_run_id _ _ _ _ Hid Ho).
    rewrite (find_of_forall _ (fun d => doc_id d = Some o)); [reflexivity| |].
    + intros d. apply matches_by_id.
    + exact Hnone.
  - intros Hid Hb. rewrite updatePatient_run_no_id; [|congruence|exact Hb].
    eexists. split; [reflexivity|]. repeat split.
Qed.

(** No [args] object that the dispatcher can produce has an [_id]. *)
Lemma schema_updatePatient_no__id (args : Args) :
  schema_updatePatient args -> args !! "_id" = None.
Proof.
  intros (_ & Hkeys). destruct (args !! "_id") as [v|] eqn:Hid; [|reflexivity].
  assert (Hin : "_id" ∈ ["id"; "nombre"; "telefono"; "correo"]).
  { apply Hkeys. rewrite Hid. eauto. }
  repeat (apply elem_of_cons in Hin as [Hin|Hin]; [discriminate Hin|]).
  now apply elem_of_nil in Hin.
Qed.

(** C5, where the code departs from it. The dispatcher hands the
    identifier to [updatePatient] under the key [id], the name the schema
    gives the argument, while the resolver reads [_id]. So in a store
    whose identifiers all came from the generator, a dispatched call
    whose [id] names a stored patient still throws "Paciente no
    encontrado", and the patients collection stays as it was. *)
Theorem updatePatient_id_argument_not_found
  (w : World) (args : Args) (s : string) (o : ObjectId) (stored : Doc) :
  ids_below (nextObjectId w) (pacientes w) ->
  schema_updatePatient args ->
  args !! "id" = Some (GStr s) ->
  ObjectId_ofString s = Some o ->
  stored ∈ pacientes w ->
  doc_id stored = Some o ->
  exists w',
    updatePatient args w
    = (Throw (GraphQLError "Paciente no encontrado"), w')
    /\ pacientes w' = pacientes w.
Proof.
  intros Hb Hschema _ _ _ _.
  apply schema_updatePatient_no__id in Hschema as Hid.
  rewrite updatePatient_run_no_id; [|congruence|exact Hb].
  eexists. split; reflexivity.
Qed.

(** C3, where the code departs from it. A dispatched call names the
    patient under [id], so the resolver, which reads [_id], never gets
    to its update: in a store whose identifiers all came from the
    generator, a call that names a stored patient and supplies a field
    whose value differs from the stored one throws "Paciente no
    encontrado", and the patient is stored afterwards as before, the
    supplied field not applied. Moreover [id] is not taken out of the
    payload: what the resolver would send to [$set] for such [args]
    holds the identifier string under [id]. *)
Theorem updatePatient_dispatched_merges_nothing
  (w : World) (args : Args) (s : string) (o : ObjectId) (stored : Doc)
  (k : string) (v : GqlValue) :
  ids_below (nextObjectId w) (pacientes w) ->
  schema_updatePatient args ->
  args !! "id" = Some (GStr s) ->
  ObjectId_ofString s = Some o ->
  stored ∈ pacientes w ->
  doc_id stored = Some o ->
  args !! k = Some v ->
  stored !! k <> Some (toBson v) ->
  exists w',
    updatePatient args w
    = (Throw (GraphQLError "Paciente no encontrado"), w')
    /\ pacientes w' = pacientes w
    /\ (forall d, d ∈ pacientes w' -> doc_id d = Some o ->
                  ids_unique (pacientes w) -> d !! k <> Some (toBson v))
    /\ update_payload args !! "id" = Some (BStr s).
Proof.
  intros Hb Hschema Hidarg Ho Hin Hdoc Hk Hdiff.
  apply schema_updatePatient_no__id in Hschema as Hid.
  rewrite updatePatient_run_no_id; [|congruence|exact Hb].
  eexists. split; [reflexivity|]. split; [reflexivity|]. split.
  - simpl. intros d Hd Hdo Hu.
    assert (Hsame : d = stored).
    { destruct (list_elem_of_split _ _ Hin) as (l1 & l2 & Hsplit).
      rewrite Hsplit in Hu, Hd.
      pose proof (ids_unique_split _ _ _ _ Hu Hdoc) as Hrest.
      apply elem_of_app in Hd as [Hd|Hd].
      - apply matches_by_id in Hdo.
        rewrite Hrest in Hdo by (apply elem_of_app; now left).
        discriminate.
      - apply elem_of_cons in Hd as [Hd|Hd]; [exact Hd|].
        apply matches_by_id in Hdo.
        rewrite Hrest in Hdo by (apply elem_of_app; now right).
        discriminate. }
    now subst d.
  - rewrite update_payload_other by discriminate. now rewrite Hidarg.
Qed.

(** C4, where the code departs from it, in two ways. A dispatched call
    names the patient under [id], so the resolver never gets to its
    phone check: for a stored patient and a non-empty phone that the
    validator rejects, the call throws "Paciente no encontrado", not
    "telefono invalido", and the validator has not been asked. And when
    the identifier does arrive under [_id], a phone supplied as the
    empty string is falsy for [if(telefono)]: the validator is not
    asked and the empty phone is written to the stored patient. *)
Theorem updatePatient_phone_not_validated
  (w : World) (args : Args) (s : string) (o : ObjectId) (stored : Doc)
  (l1 l2 : list Doc) :
  ObjectId_ofString s = Some o ->
  pacientes w = l1 ++ stored :: l2 ->
  doc_id stored = Some o ->
  ids_unique (pacientes w) ->
  (forall t,
     schema_updatePatient args ->
     args !! "id" = Some (GStr s) ->
     ids_below (nextObjectId w) (pacientes w) ->
     args !! "telefono" = Some (GStr t) -> t <> "" -> validar t = false ->
     exists w',
       updatePatient args w
       = (Throw (GraphQLError "Paciente no encontrado"), w')
       /\ validarCalls w' = validarCalls w
       /\ pacientes w' = pacientes w)
  /\ (args !! "_id" = Some (GStr s) ->
      args !! "telefono" = Some (GStr "") ->
      exists (r : Doc) (w' : World),
        updatePatient args w = (Return r, w')
        /\ validarCalls w' = validarCalls w
        /\ r !! "telefono" = Some (BStr "")
        /\ pacientes w' = l1 ++ r :: l2).
Proof.
  intros Ho Hsplit Hdoc Hu. split.
  - intros t Hschema _ Hb _ _ _.
    apply schema_updatePatient_no__id in Hschema as Hid.
    rewrite updatePatient_run_no_id; [|congruence|exact Hb].
    eexists. repeat split.
  - intros Hid Ht.
    assert (Hfind : find (matches (FField "_id" (BOid o))) (pacientes w)
                    = Some stored).
    { rewrite Hsplit. apply find_skip; [|now apply matches_by_id].
      intros x Hx. rewrite Hsplit in Hu.
      apply (ids_unique_split _ _ _ _ Hu Hdoc). apply elem_of_app. now left. }
    rewrite (updatePatient_run_id _ _ _ _ Hid Ho), Hfind, Ht. simpl.
    rewrite (updated_split _ _ _ _ _ _ Hsplit Hdoc Hu).
    eexists _, _. split; [reflexivity|]. split; [reflexivity|].
    split; [|reflexivity].
    unfold set_fields. apply lookup_union_Some_l.
    now rewrite update_payload_other, Ht.
Qed.

End UpdatePatient.

(** ** Identifiers and phone numbers at the boundary *)

Section Boundary.

Context `{Externals}.

(** C8, where the code departs from it. A string that is not a
    well-formed identifier makes [getPacient], [deleteAppointment] and
    [addAppointment] (as patientRef) throw the identifier constructor's
    error before the store is touched, and so does [updatePatient] when
    the string sits under [_id]. Supplied under [id], the key the
    dispatcher uses, the string is never parsed: [updatePatient] throws
    "Paciente no encontrado" instead. *)
Theorem malformed_identifier_failures (w : World) (s : string) :
  ObjectId_ofString s = None ->
  getPacient s w = (Throw BSONError, w)
  /\ deleteAppointment s w = (Throw BSONError, w)
  /\ (forall fecha tipo, addAppointment s fecha tipo w = (Throw BSONError, w))
  /\ (forall args : Args,
        args !! "_id" = Some (GStr s) ->
        updatePatient args w = (Throw BSONError, w))
  /\ (forall args : Args,
        schema_updatePatient args ->
        args !! "id" = Some (GStr s) ->
        ids_below (nextObjectId w) (pacientes w) ->
        updatePatient args w
        = (Throw (GraphQLError "Paciente no encontrado"),
           mkWorld (pacientes w) (citas w) (nextObjectId w + 1)
                   (validarCalls w))).
Proof.
  intros Hs. split; [|split; [|split; [|split]]].
  - now rewrite getPacient_run, Hs.
  - now rewrite deleteAppointment_run, Hs.
  - intros fecha tipo. now rewrite addAppointment_run, Hs.
  - intros args Hid.
    unfold updatePatient, bind, new_ObjectId, throw. now rewrite Hid, Hs.
  - intros args Hschema _ Hb.
    apply schema_updatePatient_no__id in Hschema as Hid.
    apply updatePatient_run_no_id; [congruence|exact Hb].
Qed.

(** C9, where the code departs from it. [addPatient] never asks the
    validator: a phone that the validator rejects, when it collides with
    no stored patient, is stored as given, and the store then holds a
    patient whose phone does not satisfy the phone-format predicate. *)
Theorem addPatient_stores_rejected_phone
  (w : World) (nombre telefono correo : string) :
  validar telefono = false ->
  (forall d, d ∈ pacientes w -> ~ same_phone_or_email telefono correo d) ->
  exists (p : Doc) (w' : World),
    addPatient nombre telefono correo w = (Return p, w')
    /\ validarCalls w' = validarCalls w
    /\ p ∈ pacientes w'
    /\ p !! "telefono" = Some (BStr telefono)
    /\ ~ phones_valid w'.
Proof.
  intros Hbad Hall. rewrite addPatient_run.
  rewrite (find_of_forall _ _ _ (matches_phone_or_email telefono correo) Hall).
  eexists _, _. split; [reflexivity|]. simpl.
  assert (Hphone : new_patient (nextObjectId w) nombre telefono correo
                     !! "telefono" = Some (BStr telefono)).
  { unfold new_patient. now simplify_map_eq. }
  assert (Hin : new_patient (nextObjectId w) nombre telefono correo
                  ∈ pacientes w
                      ++ [new_patient (nextObjectId w) nombre telefono correo]).
  { apply elem_of_app. right. constructor. }
  split; [reflexivity|]. split; [exact Hin|]. split; [exact Hphone|].
  intros Hvalid. destruct (Hvalid _ Hin) as (t & Ht & Hok).
  rewrite Hphone in Ht. injection Ht as <-. congruence.
Qed.

End Boundary.

(** ** The store stays sound *)

Section Invariant.

Context `{Externals}.

Lemma delete_first_Some_split (p : Doc -> bool) (l l' : list Doc) :
  delete_first p l = Some l' ->
  exists l1 d l2, l = l1 ++ d :: l2 /\ l' = l1 ++ l2.
Proof.
  revert l'. induction l as [|x l IH]; simpl; intros l'; [discriminate|].
  destruct (p x).
  - intros [= <-]. now exists [], x, l.
  - destruct (delete_first p l) as [r|]; [|discriminate].
    intros [= <-]. destruct (IH r eq_refl) as (l1 & d & l2 & -> & ->).
    now exists (x :: l1), d, l2.
Qed.

Lemma update_first_Some_split (p : Doc -> bool) (f : Doc -> Doc)
  (l l' : list Doc) (r : Doc) :
  update_first p f l = Some (r, l') ->
  exists l1 d l2, l = l1 ++ d :: l2 /\ r = f d /\ l' = l1 ++ f d :: l2.
Proof.
  revert l'. induction l as [|x l IH]; simpl; intros l'; [discriminate|].
  destruct (p x).
  - intros [= <- <-]. now exists [], x, l.
  - destruct (update_first p f l) as [[r' l'']|]; [|discriminate].
    intros [= <- <-]. destruct (IH l'' eq_refl) as (l1 & d & l2 & -> & -> & ->).
    now exists (x :: l1), d, l2.
Qed.

Lemma ids_below_remove (next : ObjectId) (l1 l2 : list Doc) (d : Doc) :
  ids_below next (l1 ++ d :: l2) -> ids_below next (l1 ++ l2).
Proof.
  unfold ids_below. rewrite !Forall_app, Forall_cons. tauto.
Qed.

Lemma ids_unique_remove (l1 l2 : list Doc) (d : Doc) :
  ids_unique (l1 ++ d :: l2) -> ids_unique (l1 ++ l2).
Proof.
  unfold ids_unique. rewrite !fmap_app, fmap_cons, !NoDup_app, NoDup_cons.
  intros (H1 & Hdisj & _ & H2). repeat split; auto.
  intros x Hx Hx2. apply (Hdisj x Hx). now constructor.
Qed.

Lemma ids_replace (l1 l2 : list Doc) (d d' : Doc) :
  doc_id d' = doc_id d ->
  doc_id <$> (l1 ++ d' :: l2) = doc_id <$> (l1 ++ d :: l2).
Proof. intros Hd. now rewrite !fmap_app, !fmap_cons, Hd. Qed.

Lemma ids_below_fmap (next : ObjectId) (l l' : list Doc) :
  doc_id <$> l' = doc_id <$> l -> ids_below next l -> ids_below next l'.
Proof.
  unfold ids_below. rewrite !Forall_forall. intros Heq Hb d Hd.
  apply (list_elem_of_fmap_2 doc_id) in Hd. rewrite Heq in Hd.
  apply list_elem_of_fmap in Hd as (x & -> & Hx). now apply Hb.
Qed.

Lemma store_ok_asked (t : string) (w : World) :
  store_ok w -> store_ok (asked t w).
Proof. intros Hok. exact Hok. Qed.

Lemma store_ok_updated (o : ObjectId) (args : Args) (w : World) :
  store_ok w -> store_ok (updated o args w).2.
Proof.
  intros (Hbp & Hbc & Hup & Huc). unfold updated.
  destruct (update_first _ _ _) as [[r l]|] eqn:Hupd; simpl;
    [|now repeat split].
  destruct (update_first_Some_split _ _ _ _ _ Hupd)
    as (l1 & d & l2 & Hl & _ & ->).
  assert (Hids : doc_id <$> (l1 ++ set_fields (update_payload args) d :: l2)
                 = doc_id <$> pacientes w).
  { rewrite Hl. apply ids_replace, set_fields_payload_id. }
  repeat split; simpl; auto.
  - now apply (ids_below_fmap _ (pacientes w)).
  - unfold ids_unique. now rewrite Hids.
Qed.

Theorem addPatient_store_ok (nombre telefono correo : string) (w : World) :
  store_ok w -> store_ok (addPatient nombre telefono correo w).2.
Proof.
  intros (Hbp & Hbc & Hup & Huc). rewrite addPatient_run.
  destruct (find _ (pacientes w)); simpl; [now repeat split|].
  pose proof (doc_id_insert (nextObjectId w)
                {[ "nombre" := BStr nombre; "telefono" := BStr telefono;
                   "correo" := BStr correo ]}) as Hid.
  repeat split; simpl.
  - now apply ids_below_snoc.
  - now apply ids_below_succ.
  - now apply (ids_unique_snoc (nextObjectId w)).
  - exact Huc.
Qed.

Theorem addAppointment_store_ok (paciente fecha tipo : string) (w : World) :
  store_ok w -> store_ok (addAppointment paciente fecha tipo w).2.
Proof.
  intros (Hbp & Hbc & Hup & Huc). rewrite addAppointment_run.
  destruct (ObjectId_ofString paciente) as [p|]; [|now repeat split].
  cbv zeta. destruct (find _ (citas w)); simpl; [now repeat split|].
  pose proof (doc_id_insert (nextObjectId w)
                {[ "paciente" := BOid p;
                   "fecha" := BDate (bsonDate (Date_parse fecha));
                   "tipo" := BStr tipo ]}) as Hid.
  repeat split; simpl.
  - now apply ids_below_succ.
  - now apply ids_below_snoc.
  - exact Hup.
  - now apply (ids_unique_snoc (nextObjectId w)).
Qed.

Theorem deleteAppointment_store_ok (id : string) (w : World) :
  store_ok w -> store_ok (deleteAppointment id w).2.
Proof.
  intros (Hbp & Hbc & Hup & Huc). rewrite deleteAppointment_run.
  destruct (ObjectId_ofString id) as [o|]; [|now repeat split].
  destruct (delete_first _ (citas w)) as [l|] eqn:Hdel; [|now repeat split].
  destruct (delete_first_Some_split _ _ _ Hdel) as (l1 & d & l2 & Hl & ->).
  rewrite Hl in Hbc, Huc. repeat split; simpl; auto.
  - now apply ids_below_remove in Hbc.
  - now apply ids_unique_remove in Huc.
Qed.

Theorem updatePatient_store_ok (args : Args) (w : World) :
  store_ok w -> store_ok (updatePatient args w).2.
Proof.
  intros Hok.
  destruct (args !! "_id") as [[|s]|] eqn:Hid.
  - rewrite updatePatient_run_no_id; [|congruence|apply Hok].
    destruct Hok as (Hbp & Hbc & Hup & Huc).
    repeat split; simpl; auto using ids_below_succ.
  - destruct (ObjectId_ofString s) as [o|] eqn:Ho.
    + rewrite (updatePatient_run_id _ _ _ _ Hid Ho).
      destruct (find _ (pacientes w)); [|exact Hok].
      destruct (args !! "telefono") as [[|t]|].
      * now apply store_ok_updated.
      * destruct (String.eqb t ""); [now apply store_ok_updated|].
        destruct (validar t); [|exact Hok].
        now apply store_ok_updated, store_ok_asked.
      * now apply store_ok_updated.
    + unfold updatePatient, bind, new_ObjectId, throw.
      rewrite Hid, Ho. exact Hok.
  - rewrite updatePatient_run_no_id; [|congruence|apply Hok].
    destruct Hok as (Hbp & Hbc & Hup & Huc).
    repeat split; simpl; auto using ids_below_succ.
Qed.

(** The validated path of [updatePatient] keeps every stored phone
    acceptable: with the phone omitted, or supplied as a non-empty
    string, a store of valid phones stays one. *)
Lemma updated_phones_valid (o : ObjectId) (args : Args) (w : World) :
  phones_valid w ->
  (args !! "telefono" = None
   \/ exists t, args !! "telefono" = Some (GStr t) /\ validar t = true) ->
  phones_valid (updated o args w).2.
Proof.
  intros Hvalid Hphone. unfold updated.
  destruct (update_first _ _ _) as [[r l]|] eqn:Hupd; [|exact Hvalid].
  destruct (update_first_Some_split _ _ _ _ _ Hupd)
    as (l1 & d & l2 & Hl & _ & ->).
  unfold phones_valid in *. simpl. rewrite Hl in Hvalid.
  intros x Hx. apply elem_of_app in Hx as [Hx|Hx].
  { apply Hvalid, elem_of_app. now left. }
  apply elem_of_cons in Hx as [->|Hx].
  2:{ apply Hvalid, elem_of_app. right. now apply list_elem_of_further. }
  unfold set_fields. destruct Hphone as [Hnone|(t & Ht & Hok)].
  - rewrite lookup_union_r.
    + apply Hvalid, elem_of_app. right. apply list_elem_of_here.
    + now rewrite update_payload_other, Hnone.
  - exists t. split; [|exact Hok]. apply lookup_union_Some_l.
    now rewrite update_payload_other, Ht.
Qed.

Theorem updatePatient_phones_valid (args : Args) (w : World) :
  store_ok w ->
  phones_valid w ->
  (args !! "telefono" = None
   \/ exists t, args !! "telefono" = Some (GStr t) /\ t <> "") ->
  phones_valid (updatePatient args w).2.
Proof.
  intros Hok Hvalid Hphone.
  destruct (args !! "_id") as [[|s]|] eqn:Hid.
  - rewrite updatePatient_run_no_id; [exact Hvalid|congruence|apply Hok].
  - destruct (ObjectId_ofString s) as [o|] eqn:Ho.
    + rewrite (updatePatient_run_id _ _ _ _ Hid Ho).
      destruct (find _ (pacientes w)); [|exact Hvalid].
      destruct Hphone as [Hnone|(t & Ht & Hne)].
      * rewrite Hnone. apply updated_phones_valid; [exact Hvalid|now left].
      * rewrite Ht. apply String.eqb_neq in Hne. rewrite Hne.
        destruct (validar t) eqn:Hv; [|exact Hvalid].
        apply updated_phones_valid; [exact Hvalid|]. right. eauto.
    + unfold updatePatient, bind, new_ObjectId, throw.
      rewrite Hid, Ho. exact Hvalid.
  - rewrite updatePatient_run_no_id; [exact Hvalid|congruence|apply Hok].
Qed.

End Invariant.

(** ** Looking patients up *)

Section Lookup.

Context `{Externals} `{Printing}.

Lemma find_by_id (l : list Doc) (d : Doc) (o : ObjectId) :
  ids_unique l -> d ∈ l -> doc_id d = Some o ->
  find (matches (FField "_id" (BOid o))) l = Some d.
Proof.
  intros Hu Hd Hid. destruct (list_elem_of_split _ _ Hd) as (l1 & l2 & ->).
  apply find_skip; [|now apply matches_by_id].
  intros x Hx. apply (ids_unique_split _ _ _ _ Hu Hid).
  apply elem_of_app. now left.
Qed.

Lemma find_by_id_None (l : list Doc) (o : ObjectId) :
  (forall d, d ∈ l -> doc_id d <> Some o) ->
  find (matches (FField "_id" (BOid o))) l = None.
Proof.
  intros Hnone. apply (find_of_forall _ (fun d => doc_id d = Some o)).
  - intros d. apply matches_by_id.
  - exact Hnone.
Qed.

(** X1. [getPacient] on a well-formed identifier, in a store with
    distinct patient identifiers: it returns the stored patient that
    carries the identifier, or throws "Contact not found" when none does;
    either way the world is left as it was. *)
Theorem getPacient_finds_by_id (w : World) (id : string) (o : ObjectId) :
  ObjectId_ofString id = Some o ->
  ids_unique (pacientes w) ->
  (forall d, d ∈ pacientes w -> doc_id d = Some o ->
             getPacient id w = (Return d, w))
  /\ ((forall d, d ∈ pacientes w -> doc_id d <> Some o) ->
      getPacient id w = (Throw (GraphQLError "Contact not found"), w)).
Proof.
  intros Ho Hu. split.
  - intros d Hd Hid. rewrite getPacient_run, Ho.
    now rewrite (find_by_id _ _ _ Hu Hd Hid).
  - intros Hnone. rewrite getPacient_run, Ho.
    now rewrite (find_by_id_None _ _ Hnone).
Qed.

(** X2. A patient that [addPatient] has just created can be fetched
    back: when the string [Paciente.id] shows for the new identifier is
    read by the identifier constructor as that identifier, [getPacient]
    on that string returns exactly the document [addPatient] returned. *)
Theorem addPatient_then_getPacient
  (w : World) (nombre telefono correo : string) :
  ids_below (nextObjectId w) (pacientes w) ->
  (forall d, d ∈ pacientes w -> ~ same_phone_or_email telefono correo d) ->
  ObjectId_ofString (ObjectId_toString (nextObjectId w))
  = Some (nextObjectId w) ->
  exists (p : Doc) (w' : World) (id : string),
    addPatient nombre telefono correo w = (Return p, w')
    /\ Paciente_id p = Some id
    /\ getPacient id w' = (Return p, w').
Proof.
  intros Hb Hall Hround. rewrite addPatient_run.
  rewrite (find_of_forall _ _ _ (matches_phone_or_email telefono correo) Hall).
  eexists _, _, (ObjectId_toString (nextObjectId w)).
  split; [reflexivity|]. split.
  - unfold Paciente_id, new_patient. now rewrite lookup_insert_eq.
  - rewrite getPacient_run, Hround. simpl pacientes.
    rewrite (find_skip _ (pacientes w) _ []); [reflexivity| |].
    + intros x Hx. destruct (matches _ x) eqn:Hm; [|reflexivity].
      apply matches_by_id in Hm.
      now apply (ids_below_fresh _ _ _ Hb Hx) in Hm.
    + apply matches_by_id, doc_id_insert.
Qed.

(** X10. After [updatePatient] has succeeded for an identifier given
    under [_id], [getPacient] on the same identifier returns the
    post-update document. *)
Theorem updatePatient_then_getPacient
  (w w' : World) (args : Args) (s : string) (o : ObjectId) (r : Doc) :
  args !! "_id" = Some (GStr s) ->
  ObjectId_ofString s = Some o ->
  updatePatient args w = (Return r, w') ->
  getPacient s w' = (Return r, w').
Proof.
  intros Hid Ho Hrun.
  rewrite (updatePatient_run_id _ _ _ _ Hid Ho) in Hrun.
  destruct (find _ (pacientes w)) as [d|] eqn:Hfind; [|discriminate].
  assert (Hupd : exists w0, pacientes w0 = pacientes w
                            /\ updated o args w0 = (Return r, w')).
  { destruct (args !! "telefono") as [[|t]|]; [now exists w| |now exists w].
    destruct (String.eqb t ""); [now exists w|].
    destruct (validar t); [|discriminate]. now exists (asked t w). }
  destruct Hupd as (w0 & Hw0 & Hupd). unfold updated in Hupd. rewrite Hw0 in Hupd.
  destruct (find_Some_split _ _ _ Hfind) as (l1 & l2 & Hl & Hl1 & Hd).
  rewrite Hl, (update_first_skip _ _ _ _ _ Hl1 Hd) in Hupd.
  injection Hupd as <- <-.
  rewrite getPacient_run, Ho. simpl pacientes.
  rewrite find_skip; [reflexivity|exact Hl1|].
  apply matches_by_id. rewrite set_fields_payload_id. now apply matches_by_id.
Qed.

End Lookup.

(** ** Uniqueness of patients and of appointments *)

Section Uniqueness.

Context `{Externals}.

Lemma pairwise_app {A : Type} (R : A -> A -> Prop) (l1 l2 : list A) :
  pairwise R (l1 ++ l2)
  <-> pairwise R l1 /\ pairwise R l2
      /\ (forall x y, x ∈ l1 -> y ∈ l2 -> R x y).
Proof.
  induction l1 as [|a l1 IH]; simpl.
  - split; [intros Hp|tauto]. repeat split; auto.
    intros x y Hx. now apply elem_of_nil in Hx.
  - rewrite Forall_app, IH. split.
    + intros ((Ha1 & Ha2) & Hp1 & Hp2 & Hc). repeat split; auto.
      intros x y Hx Hy. apply elem_of_cons in Hx as [->|Hx]; [|now apply Hc].
      rewrite Forall_forall in Ha2. now apply Ha2.
    + intros ((Ha1 & Hp1) & Hp2 & Hc). repeat split; auto.
      * apply Forall_forall. intros y Hy. apply Hc; [constructor|exact Hy].
      * intros x y Hx Hy. apply Hc; [now constructor|exact Hy].
Qed.

Lemma pairwise_snoc {A : Type} (R : A -> A -> Prop) (l : list A) (a : A) :
  pairwise R l -> (forall x, x ∈ l -> R x a) -> pairwise R (l ++ [a]).
Proof.
  intros Hp Ha. apply pairwise_app. split; [exact Hp|]. split.
  - simpl. split; [constructor|exact I].
  - intros x y Hx Hy. apply list_elem_of_singleton in Hy. subst y.
    now apply Ha.
Qed.

Lemma pairwise_remove {A : Type} (R : A -> A -> Prop) (l1 l2 : list A)
  (a : A) :
  pairwise R (l1 ++ a :: l2) -> pairwise R (l1 ++ l2).
Proof.
  rewrite !pairwise_app. simpl. intros (H1 & (_ & H2) & Hc).
  repeat split; auto. intros x y Hx Hy. apply Hc; [exact Hx|now constructor].
Qed.

(** In a pairwise-unrelated list, the element at a position is unrelated
    to every other one, for a symmetric relation. *)
Lemma pairwise_others {A : Type} (R : A -> A -> Prop) (l1 l2 : list A)
  (a : A) :
  (forall x y, R x y -> R y x) ->
  pairwise R (l1 ++ a :: l2) -> forall x, x ∈ l1 ++ l2 -> R a x.
Proof.
  intros Hsym. rewrite pairwise_app. simpl. intros (_ & (Ha & _) & Hc) x Hx.
  apply elem_of_app in Hx as [Hx|Hx].
  - apply Hsym, Hc; [exact Hx|constructor].
  - rewrite Forall_forall in Ha. now apply Ha.
Qed.

Lemma new_patient_phone (i : ObjectId) (nombre telefono correo : string) :
  new_patient i nombre telefono correo !! "telefono" = Some (BStr telefono).
Proof. unfold new_patient. now simplify_map_eq. Qed.

Lemma new_patient_email (i : ObjectId) (nombre telefono correo : string) :
  new_patient i nombre telefono correo !! "correo" = Some (BStr correo).
Proof. unfold new_patient. now simplify_map_eq. Qed.

Lemma collide_new_patient (d : Doc) (i : ObjectId)
  (nombre telefono correo : string) :
  patients_collide d (new_patient i nombre telefono correo)
  <-> same_phone_or_email telefono correo d.
Proof.
  unfold patients_collide, same_phone_or_email.
  rewrite new_patient_phone, new_patient_email. split.
  - intros [(t & Hd & [= ->])|(c & Hd & [= ->])]; auto.
  - intros [Hd|Hd]; [left|right]; eauto.
Qed.

Lemma collide_new_appointment (c : Doc) (i p : ObjectId) (f : JsDate)
  (tipo : string) :
  appointments_collide c (new_appointment i p f tipo)
  <-> same_patient_and_date p f c.
Proof.
  unfold appointments_collide, same_patient_and_date, new_appointment.
  split.
  - intros (p' & ms & Hp & Hf & Hp' & Hf').
    simplify_map_eq. auto.
  - intros (Hp & Hf). exists p, (bsonDate f).
    repeat split; auto; now simplify_map_eq.
Qed.


Lemma addPatient_distinct (w : World) (nombre telefono correo : string) :
  patients_distinct w ->
  patients_distinct (addPatient nombre telefono correo w).2.
Proof.
  intros Hd. rewrite addPatient_run.
  destruct (find _ (pacientes w)) eqn:Hfind; [exact Hd|].
  unfold patients_distinct. simpl. apply pairwise_snoc; [exact Hd|].
  intros x Hx Hc. apply collide_new_patient in Hc.
  apply matches_phone_or_email in Hc.
  rewrite find_None_elem in Hfind. rewrite (Hfind x Hx) in Hc. discriminate.
Qed.

(** X4. [addPatient] keeps the patients pairwise distinct on phone and on
    email: run on a store where no two patients share a phone or an
    email, it leaves such a store, whatever it is given. *)
Theorem addPatient_keeps_patients_distinct
  (w : World) (nombre telefono correo : string) :
  patients_distinct w ->
  patients_distinct (addPatient nombre telefono correo w).2.
Proof. apply addPatient_distinct. Qed.

(** X5. [updatePatient] does not look at the other patients. Given under
    [_id] the identifier of a stored patient and the email of another
    stored patient (and a phone that passes the check, if any), it
    succeeds, and the store then holds two patients with the same
    email. *)
Theorem updatePatient_no_uniqueness_check
  (w : World) (args : Args) (s : string) (o : ObjectId)
  (stored other : Doc) (l1 l2 : list Doc) (correo : string) :
  args !! "_id" = Some (GStr s) ->
  ObjectId_ofString s = Some o ->
  pacientes w = l1 ++ stored :: l2 ->
  doc_id stored = Some o ->
  ids_unique (pacientes w) ->
  (forall t, args !! "telefono" = Some (GStr t) -> t <> "" ->
             validar t = true) ->
  other ∈ l1 ++ l2 ->
  other !! "correo" = Some (BStr correo) ->
  args !! "correo" = Some (GStr correo) ->
  exists (r : Doc) (w' : World),
    updatePatient args w = (Return r, w')
    /\ pacientes w' = l1 ++ r :: l2
    /\ patients_collide r other
    /\ ~ patients_distinct w'.
Proof.
  intros Hid Ho Hsplit Hdoc Hu Hphone Hother Hmail Harg.
  set (r := set_fields (update_payload args) stored).
  assert (Hfind : find (matches (FField "_id" (BOid o))) (pacientes w)
                  = Some stored).
  { rewrite Hsplit. apply find_skip; [|now apply matches_by_id].
    intros x Hx. rewrite Hsplit in Hu.
    apply (ids_unique_split _ _ _ _ Hu Hdoc). apply elem_of_app. now left. }
  assert (Hrun : exists w', updatePatient args w = (Return r, w')
                            /\ pacientes w' = l1 ++ r :: l2).
  { rewrite (updatePatient_run_id _ _ _ _ Hid Ho), Hfind.
    destruct (args !! "telefono") as [[|t]|] eqn:Ht.
    - rewrite (updated_split _ _ _ _ _ _ Hsplit Hdoc Hu). eauto.
    - destruct (String.eqb t "") eqn:Hempty.
      + rewrite (updated_split _ _ _ _ _ _ Hsplit Hdoc Hu). eauto.
      + apply String.eqb_neq in Hempty. rewrite (Hphone t eq_refl Hempty).
        rewrite (updated_split o args (asked t w) l1 l2 stored);
          [eauto|exact Hsplit|exact Hdoc|exact Hu].
    - rewrite (updated_split _ _ _ _ _ _ Hsplit Hdoc Hu). eauto. }
  destruct Hrun as (w' & Hrun & Hp).
  assert (Hcol : patients_collide r other).
  { right. exists correo. split; [|exact Hmail].
    unfold r, set_fields. apply lookup_union_Some_l.
    now rewrite update_payload_other, Harg. }
  exists r, w'. split; [exact Hrun|]. split; [exact Hp|].
  split; [exact Hcol|].
  unfold patients_distinct. rewrite Hp. intros Hpw.
  assert (Hsym : forall x y : Doc,
             ~ patients_collide x y -> ~ patients_collide y x).
  { intros x y Hxy Hyx. apply Hxy.
    destruct Hyx as [(t & Hy & Hx)|(c & Hy & Hx)]; [left|right]; eauto. }
  exact (pairwise_others _ _ _ _ Hsym Hpw other Hother Hcol).
Qed.

Lemma appointments_distinct_step (w : World) :
  appointments_distinct w ->
  (forall paciente fecha tipo,
     appointments_distinct (addAppointment paciente fecha tipo w).2)
  /\ (forall id, appointments_distinct (deleteAppointment id w).2).
Proof.
  intros Hd. split.
  - intros paciente fecha tipo. rewrite addAppointment_run.
    destruct (ObjectId_ofString paciente) as [p|]; [|exact Hd].
    cbv zeta. destruct (find _ (citas w)) eqn:Hfind; [exact Hd|].
    unfold appointments_distinct. simpl. apply pairwise_snoc; [exact Hd|].
    intros x Hx Hc. apply collide_new_appointment in Hc.
    apply matches_patient_and_date in Hc.
    rewrite find_None_elem in Hfind. rewrite (Hfind x Hx) in Hc. discriminate.
  - intros id. rewrite deleteAppointment_run.
    destruct (ObjectId_ofString id) as [o|]; [|exact Hd].
    destruct (delete_first _ (citas w)) as [l|] eqn:Hdel; [|exact Hd].
    destruct (delete_first_Some_split _ _ _ Hdel) as (l1 & d & l2 & Hl & ->).
    unfold appointments_distinct in *. simpl. rewrite Hl in Hd.
    now apply pairwise_remove in Hd.
Qed.

(** X6. [addAppointment] and [deleteAppointment] keep the appointments
    pairwise distinct on (patient, stored date). *)
Theorem appointments_stay_distinct (w : World) :
  appointments_distinct w ->
  (forall paciente fecha tipo,
     appointments_distinct (addAppointment paciente fecha tipo w).2)
  /\ (forall id, appointments_distinct (deleteAppointment id w).2).
Proof. apply appointments_distinct_step. Qed.

(** X9. Deleting an appointment frees its slot: in a store with distinct
    appointment identifiers and pairwise distinct appointments, once
    [deleteAppointment] has removed the appointment of a patient on a
    date, [addAppointment] for that patient and date succeeds. *)
Theorem deleteAppointment_frees_slot
  (w : World) (id paciente fecha : string) (o p : ObjectId) (c : Doc) :
  ObjectId_ofString id = Some o ->
  ObjectId_ofString paciente = Some p ->
  ids_unique (citas w) ->
  appointments_distinct w ->
  c ∈ citas w ->
  doc_id c = Some o ->
  same_patient_and_date p (Date_parse fecha) c ->
  forall tipo,
  exists (w1 w2 : World),
    deleteAppointment id w = (Return true, w1)
    /\ addAppointment paciente fecha tipo w1
       = (Return (mkCita (nextObjectId w) p (Date_parse fecha) tipo), w2).
Proof.
  intros Ho Hp Hu Hd Hc Hid Hsame tipo.
  destruct (list_elem_of_split _ _ Hc) as (l1 & l2 & Hsplit).
  rewrite Hsplit in Hu.
  pose proof (ids_unique_split _ _ _ _ Hu Hid) as Hrest.
  unfold appointments_distinct in Hd. rewrite Hsplit in Hd.
  exists (mkWorld (pacientes w) (l1 ++ l2) (nextObjectId w) (validarCalls w)).
  eexists. split.
  - rewrite deleteAppointment_run, Ho, Hsplit.
    rewrite delete_first_skip; [reflexivity| |now apply matches_by_id].
    intros x Hx. apply Hrest. apply elem_of_app. now left.
  - rewrite (addAppointment_run_id _ _ _ _ _ Hp). simpl citas.
    rewrite (find_of_forall _ _ _
               (matches_patient_and_date p (Date_parse fecha)));
      [reflexivity|].
    intros x Hx Hx'.
    assert (Hsym : forall a b : Doc,
               ~ appointments_collide a b -> ~ appointments_collide b a).
    { intros a b Hab Hba. apply Hab.
      destruct Hba as (p' & ms & ? & ? & ? & ?). exists p', ms. auto. }
    apply (pairwise_others _ _ _ _ Hsym Hd x Hx).
    destruct Hsame as (Hcp & Hcf). destruct Hx' as (Hxp & Hxf).
    exists p, (bsonDate (Date_parse fecha)). auto.
Qed.

End Uniqueness.

(** ** Listing appointments and expanding their patient *)

Section Appointments.

Context `{Externals}.

Lemma addAppointment_Return
  (w w' : World) (paciente fecha tipo : string) (c : Cita) :
  addAppointment paciente fecha tipo w = (Return c, w') ->
  exists p,
    ObjectId_ofString paciente = Some p
    /\ c = mkCita (nextObjectId w) p (Date_parse fecha) tipo
    /\ w' = mkWorld (pacientes w)
                    (citas w ++ [new_appointment (nextObjectId w) p
                                   (Date_parse fecha) tipo])
                    (nextObjectId w + 1) (validarCalls w).
Proof.
  rewrite addAppointment_run.
  destruct (ObjectId_ofString paciente) as [p|]; [|discriminate].
  cbv zeta. destruct (find _ (citas w)); [discriminate|].
  intros [= <- <-]. now exists p.
Qed.

(** X7. After [addAppointment] has succeeded, [getAppointments] returns
    the appointments stored before, in their order, followed by the new
    one, and changes nothing. Read back, the new appointment has the
    identifier, the patient and the type that [addAppointment] returned,
    and as its date the stored form of the returned date. *)
Theorem addAppointment_then_getAppointments
  (w w' : World) (paciente fecha tipo : string) (c : Cita) :
  addAppointment paciente fecha tipo w = (Return c, w') ->
  exists d : Doc,
    getAppointments w' = (Return (citas w ++ [d]), w')
    /\ Cita_of_doc d
       = Some (mkCita (cita__id c) (cita_paciente c)
                      (Some (bsonDate (cita_fecha c))) (cita_tipo c)).
Proof.
  intros Hrun.
  destruct (addAppointment_Return _ _ _ _ _ _ Hrun) as (p & _ & -> & ->).
  eexists. split; [reflexivity|].
  unfold Cita_of_doc, new_appointment. now simplify_map_eq.
Qed.

(** X8. [addAppointment] does not check that the patient exists: for a
    well-formed patientRef and a free (patient, date) it succeeds whether
    or not a patient carries the reference. [Cita.paciente] on the
    returned appointment then yields nothing when no stored patient
    carries the reference, and the stored patient that carries it
    otherwise. *)
Theorem addAppointment_does_not_check_patient
  (w : World) (paciente fecha tipo : string) (p : ObjectId) :
  ObjectId_ofString paciente = Some p ->
  (forall c, c ∈ citas w -> ~ same_patient_and_date p (Date_parse fecha) c) ->
  exists (c : Cita) (w' : World),
    addAppointment paciente fecha tipo w = (Return c, w')
    /\ ((forall d, d ∈ pacientes w -> doc_id d <> Some p) ->
        Cita_paciente c w' = (Return None, w'))
    /\ (forall d, ids_unique (pacientes w) -> d ∈ pacientes w ->
                  doc_id d = Some p ->
                  Cita_paciente c w' = (Return (Some d), w')).
Proof.
  intros Hp Hall. rewrite (addAppointment_run_id _ _ _ _ _ Hp).
  rewrite (find_of_forall _ _ _
             (matches_patient_and_date p (Date_parse fecha)) Hall).
  eexists _, _. split; [reflexivity|].
  unfold Cita_paciente, findOne. cbn [docs pacientes cita_paciente]. split.
  - intros Hnone. now rewrite (find_by_id_None _ _ Hnone).
  - intros d Hu Hd Hid. now rewrite (find_by_id _ _ _ Hu Hd Hid).
Qed.

End Appointments.

(** ** Deleting what was booked *)

Section BookAndCancel.

Context `{Externals} `{Printing}.

(** X14. An appointment that [addAppointment] has just created can be
    cancelled through the identifier [Cita.id] shows for it: when the
    identifier constructor reads that string back as the new identifier,
    [deleteAppointment] on it returns [true] and the appointments are
    again the ones stored before the booking, the patients untouched. *)
Theorem addAppointment_then_deleteAppointment
  (w w' : World) (paciente fecha tipo : string) (c : Cita) :
  ids_below (nextObjectId w) (citas w) ->
  addAppointment paciente fecha tipo w = (Return c, w') ->
  ObjectId_ofString (Cita_id c) = Some (cita__id c) ->
  exists w'',
    deleteAppointment (Cita_id c) w' = (Return true, w'')
    /\ citas w'' = citas w
    /\ pacientes w'' = pacientes w.
Proof.
  intros Hb Hrun Hround.
  destruct (addAppointment_Return _ _ _ _ _ _ Hrun) as (p & _ & -> & ->).
  rewrite deleteAppointment_run, Hround. cbn [citas cita__id].
  rewrite (delete_first_skip _ (citas w) _ []).
  - eexists. split; [reflexivity|]. simpl. now rewrite app_nil_r.
  - intros x Hx. destruct (matches _ x) eqn:Hm; [|reflexivity].
    apply matches_by_id in Hm. now apply (ids_below_fresh _ _ _ Hb Hx) in Hm.
  - apply matches_by_id, doc_id_insert.
Qed.

End BookAndCancel.

(** ** Two calls in flight *)

Section Interleaving.

(** [addPatient] is its check followed by its insertion. *)
Lemma addPatient_at_await (nombre telefono correo : string) :
  addPatient nombre telefono correo
  = (let* paciente_existe := addPatient_check telefono correo in
     addPatient_insert nombre telefono correo paciente_existe).
Proof. reflexivity. Qed.

(** X11. The check and the insertion of [addPatient] are two awaited
    steps. When two calls with the same phone or the same email, neither
    colliding with a stored patient, both get their check answered
    before either inserts, both succeed: the store ends with both
    patients, which share a phone or an email. *)
Theorem addPatient_interleaved_duplicates
  (w : World) (n1 t1 c1 n2 t2 c2 : string) :
  (forall d, d ∈ pacientes w -> ~ same_phone_or_email t1 c1 d) ->
  (forall d, d ∈ pacientes w -> ~ same_phone_or_email t2 c2 d) ->
  t1 = t2 \/ c1 = c2 ->
  exists (p1 p2 : Doc) (w' : World),
    addPatient_twice_interleaved n1 t1 c1 n2 t2 c2 w = (Return (p1, p2), w')
    /\ pacientes w' = pacientes w ++ [p1; p2]
    /\ patients_collide p1 p2
    /\ ~ patients_distinct w'.
Proof.
  intros H1 H2 Hsame.
  unfold addPatient_twice_interleaved, addPatient_check, bind, findOne.
  cbn [docs].
  rewrite (find_of_forall _ _ _ (matches_phone_or_email t1 c1) H1).
  rewrite (find_of_forall _ _ _ (matches_phone_or_email t2 c2) H2).
  assert (Hcol : patients_collide
                   (new_patient (nextObjectId w) n1 t1 c1)
                   (new_patient (nextObjectId w + 1) n2 t2 c2)).
  { apply collide_new_patient. destruct Hsame as [->| ->]; [left|right].
    - apply new_patient_phone.
    - apply new_patient_email. }
  exists (new_patient (nextObjectId w) n1 t1 c1),
         (new_patient (nextObjectId w + 1) n2 t2 c2).
  eexists. split; [reflexivity|]. simpl.
  split; [now rewrite <- app_assoc|]. split; [exact Hcol|].
  unfold patients_distinct. simpl. rewrite <- app_assoc. simpl.
  rewrite pairwise_app. simpl. intros (_ & (Hf & _) & _).
  apply Forall_cons in Hf as (Hf & _). exact (Hf Hcol).
Qed.

End Interleaving.

(** ** Serving requests *)

Section Serving.

Context `{Externals}.

Lemma with_argument_lookup (k j : string) (v : option GqlValue)
  (args : Args) :
  k <> j -> with_argument k v args !! j = args !! j.
Proof.
  intros Hne. destruct v; simpl; [|reflexivity]. now apply lookup_insert_ne.
Qed.

Lemma updatePatient_args_no__id (id : string)
  (nombre telefono correo : option GqlValue) :
  updatePatient_args id nombre telefono correo !! "_id" = None.
Proof.
  unfold updatePatient_args.
  rewrite !with_argument_lookup by discriminate.
  now apply lookup_singleton_ne.
Qed.

(** The [args] of a request are among those the schema allows. *)
Lemma updatePatient_args_schema (id : string)
  (nombre telefono correo : option GqlValue) :
  schema_updatePatient (updatePatient_args id nombre telefono correo).
Proof.
  unfold updatePatient_args. split.
  - exists id. rewrite !with_argument_lookup by discriminate.
    apply lookup_singleton_eq.
  - intros k Hk.
    destruct (decide (k = "nombre")) as [->|Hn];
      [apply list_elem_of_further, list_elem_of_here|].
    destruct (decide (k = "telefono")) as [->|Ht];
      [do 2 apply list_elem_of_further; apply list_elem_of_here|].
    destruct (decide (k = "correo")) as [->|Hc];
      [do 3 apply list_elem_of_further; apply list_elem_of_here|].
    rewrite !with_argument_lookup in Hk by congruence.
    destruct (decide (k = "id")) as [->|Hi]; [apply list_elem_of_here|].
    rewrite lookup_singleton_ne in Hk by congruence.
    destruct Hk as [v Hv]. discriminate Hv.
Qed.

(** What a dispatched [updatePatient] does to a sound store: it uses up
    one identifier and nothing else. *)
Lemma dispatch_UpdatePatient (w : World) (id : string)
  (nombre telefono correo : option GqlValue) :
  ids_below (nextObjectId w) (pacientes w) ->
  dispatch (UpdatePatient id nombre telefono correo) w
  = mkWorld (pacientes w) (citas w) (nextObjectId w + 1) (validarCalls w).
Proof.
  intros Hb. simpl. rewrite updatePatient_run_no_id; [reflexivity| |exact Hb].
  rewrite updatePatient_args_no__id. discriminate.
Qed.

Lemma getPacient_world (id : string) (w : World) : (getPacient id w).2 = w.
Proof.
  rewrite getPacient_run. destruct (ObjectId_ofString id); [|reflexivity].
  now destruct (find _ (pacientes w)).
Qed.

Lemma dispatch_store_ok (r : Request) (w : World) :
  store_ok w -> store_ok (dispatch r w).
Proof.
  intros Hok. destruct r; simpl.
  - now rewrite getPacient_world.
  - exact Hok.
  - now apply addPatient_store_ok.
  - now apply addAppointment_store_ok.
  - now apply deleteAppointment_store_ok.
  - now apply updatePatient_store_ok.
Qed.

Lemma dispatch_patients (r : Request) (w : World) :
  store_ok w ->
  exists added, pacientes (dispatch r w) = pacientes w ++ added.
Proof.
  intros Hok. destruct r.
  - simpl. rewrite getPacient_world. exists []. now rewrite app_nil_r.
  - exists []. now rewrite app_nil_r.
  - simpl. rewrite addPatient_run. destruct (find _ (pacientes w)).
    + exists []. now rewrite app_nil_r.
    + eexists. reflexivity.
  - simpl. rewrite addAppointment_run.
    destruct (ObjectId_ofString paciente);
      [|exists []; now rewrite app_nil_r].
    cbv zeta. destruct (find _ (citas w)); exists []; now rewrite app_nil_r.
  - simpl. rewrite deleteAppointment_run.
    destruct (ObjectId_ofString id); [|exists []; now rewrite app_nil_r].
    destruct (delete_first _ (citas w)); exists []; now rewrite app_nil_r.
  - rewrite dispatch_UpdatePatient by apply Hok.
    exists []. now rewrite app_nil_r.
Qed.

Lemma dispatch_validarCalls (r : Request) (w : World) :
  store_ok w -> validarCalls (dispatch r w) = validarCalls w.
Proof.
  intros Hok. destruct r.
  - simpl. now rewrite getPacient_world.
  - reflexivity.
  - simpl. rewrite addPatient_run. now destruct (find _ (pacientes w)).
  - simpl. rewrite addAppointment_run.
    destruct (ObjectId_ofString paciente); [|reflexivity].
    cbv zeta. now destruct (find _ (citas w)).
  - simpl. rewrite deleteAppointment_run.
    destruct (ObjectId_ofString id); [|reflexivity].
    now destruct (delete_first _ (citas w)).
  - now rewrite dispatch_UpdatePatient by apply Hok.
Qed.

Lemma dispatch_distinct (r : Request) (w : World) :
  store_ok w -> patients_distinct w -> appointments_distinct w ->
  patients_distinct (dispatch r w) /\ appointments_distinct (dispatch r w).
Proof.
  intros Hok Hp Ha. destruct r.
  - simpl. now rewrite getPacient_world.
  - now split.
  - simpl. split; [now apply addPatient_distinct|].
    rewrite addPatient_run. now destruct (find _ (pacientes w)).
  - simpl. split; [|now apply appointments_distinct_step].
    rewrite addAppointment_run.
    destruct (ObjectId_ofString paciente); [|exact Hp].
    cbv zeta. now destruct (find _ (citas w)).
  - simpl. split; [|now apply appointments_distinct_step].
    rewrite deleteAppointment_run.
    destruct (ObjectId_ofString id); [|exact Hp].
    now destruct (delete_first _ (citas w)).
  - rewrite dispatch_UpdatePatient by apply Hok. now split.
Qed.

(** X12. Whatever requests are served, one after the other, from a sound
    store in which patients are pairwise distinct on phone and on email
    and appointments on (patient, stored date), the store stays sound and
    both uniqueness invariants hold afterwards. *)
Theorem serve_keeps_invariants (rs : list Request) (w : World) :
  store_ok w -> patients_distinct w -> appointments_distinct w ->
  store_ok (serve rs w)
  /\ patients_distinct (serve rs w)
  /\ appointments_distinct (serve rs w).
Proof.
  unfold serve. revert w. induction rs as [|r rs IH]; intros w Hok Hp Ha.
  - simpl. auto.
  - simpl. destruct (dispatch_distinct r w Hok Hp Ha) as (Hp' & Ha').
    apply IH; [now apply dispatch_store_ok|exact Hp'|exact Ha'].
Qed.

(** X13. Through the schema no stored patient is ever changed or removed
    and the phone validator is never asked: after any requests served
    from a sound store, the patients collection is the former one
    followed by the patients added, and the record of validator calls is
    the former one. *)
Theorem serve_never_updates_patients (rs : list Request) (w : World) :
  store_ok w ->
  (exists added, pacientes (serve rs w) = pacientes w ++ added)
  /\ validarCalls (serve rs w) = validarCalls w.
Proof.
  unfold serve. revert w. induction rs as [|r rs IH]; intros w Hok.
  - split; [exists []; now rewrite app_nil_r|reflexivity].
  - simpl. destruct (IH _ (dispatch_store_ok r w Hok)) as ((l & Hl) & Hc).
    destruct (dispatch_patients r w Hok) as (l0 & Hl0). split.
    + exists (l0 ++ l). now rewrite Hl, Hl0, app_assoc.
    + now rewrite Hc, dispatch_validarCalls.
Qed.

End Serving.

(** ** The properties on concrete stores *)

#[local] Existing Instance Demo.externals.

Ltac by_evaluation := vm_compute; reflexivity.

(** An object with the keys [id] and [nombre] is one the dispatcher can
    produce. *)
Lemma demo_rename_schema (s : string) :
  schema_updatePatient {[ "id" := GStr s; "nombre" := GStr "Ann" ]}.
Proof.
  split.
  - exists s. apply lookup_insert_eq.
  - intros k Hk.
    destruct (decide (k = "id")) as [->|Hid]; [apply list_elem_of_here|].
    rewrite lookup_insert_ne in Hk by congruence.
    destruct (decide (k = "nombre")) as [->|Hn].
    + apply list_elem_of_further, list_elem_of_here.
    + rewrite lookup_singleton_ne in Hk by congruence.
      destruct Hk as [v Hv]. discriminate Hv.
Defined.

Lemma demo_w1_ok : store_ok Demo.w1.
Proof.
  repeat split.
  - constructor; [|constructor]. exists 1. split; reflexivity.
  - constructor.
  - apply NoDup_singleton.
  - constructor.
Defined.

Lemma demo_w2_ok : store_ok Demo.w2.
Proof.
  repeat split.
  - constructor; [|constructor]. exists 1. split; reflexivity.
  - constructor; [|constructor]. exists 2. split; reflexivity.
  - apply NoDup_singleton.
  - apply NoDup_singleton.
Defined.

(** A second patient with Ana's phone and another email is refused; Ana
    herself is accepted into the empty store. *)
Lemma addPatient_conflict_or_insert_witness :
  addPatient "Bob" "555-1" "b@x.com" Demo.w1
  = (Throw (GraphQLError "ya existe el paciente"), Demo.w1)
  /\ exists (p : Doc) (w' : World),
       addPatient "Ana" "555-1" "a@x.com" Demo.w0 = (Return p, w')
       /\ pacientes w' = pacientes Demo.w0 ++ [p]
       /\ citas w' = citas Demo.w0
       /\ doc_id p = Some (nextObjectId Demo.w0)
       /\ p !! "nombre" = Some (BStr "Ana")
       /\ p !! "telefono" = Some (BStr "555-1")
       /\ p !! "correo" = Some (BStr "a@x.com")
       /\ (store_ok Demo.w0 ->
           forall d, d ∈ pacientes Demo.w0 -> doc_id d <> doc_id p).
Proof.
  split.
  - apply (proj1 (addPatient_conflict_or_insert Demo.w1 "Bob" "555-1" "b@x.com")).
    exists Demo.ana. split; [apply list_elem_of_here|].
    left. vm_compute. reflexivity.
  - apply (proj2 (addPatient_conflict_or_insert Demo.w0 "Ana" "555-1" "a@x.com")).
    intros d Hd. apply elem_of_nil in Hd. destruct Hd.
Defined.

(** Ana's check-up on 2024-05-01 is booked: a review on the same day is
    refused; in the store without appointments the check-up is accepted. *)
Lemma addAppointment_conflict_or_insert_witness :
  addAppointment Demo.id1 "2024-05-01" "review" Demo.w2
  = (Throw (GraphQLError "Ya existe una cita para este paciente en esa fecha"),
     Demo.w2)
  /\ addAppointment Demo.id1 "2024-05-01" "checkup" Demo.w1
     = (Return (mkCita 2 1 (Some 1714521600000%Z) "checkup"), Demo.w2).
Proof.
  split.
  - apply (proj1 (@addAppointment_conflict_or_insert Demo.externals
                    Demo.w2 Demo.id1 "2024-05-01" "review" 1 eq_refl)).
    exists Demo.checkup. split; [apply list_elem_of_here|].
    split; vm_compute; reflexivity.
  - apply (proj2 (@addAppointment_conflict_or_insert Demo.externals
                    Demo.w1 Demo.id1 "2024-05-01" "checkup" 1 eq_refl)).
    intros c Hc. apply elem_of_nil in Hc. destruct Hc.
Defined.

(** Renaming Ana leaves her phone and email as stored. *)
Lemma updatePatient_partial_merge_witness :
  exists (r : Doc) (w' : World),
    updatePatient {[ "_id" := GStr Demo.id1; "nombre" := GStr "Ann" ]} Demo.w1
    = (Return r, w')
    /\ r !! "nombre" = Some (BStr "Ann")
    /\ r !! "telefono" = Demo.ana !! "telefono"
    /\ r !! "correo" = Demo.ana !! "correo".
Proof.
  destruct (@updatePatient_partial_merge Demo.externals Demo.w1
              {[ "_id" := GStr Demo.id1; "nombre" := GStr "Ann" ]}
              Demo.id1 1 Demo.ana [] [])
    as (r & w' & Hrun & _ & _ & _ & _ & _ & Hset & Hkeep).
  - by_evaluation.
  - by_evaluation.
  - reflexivity.
  - by_evaluation.
  - apply NoDup_singleton.
  - intros t Ht. vm_compute in Ht. discriminate Ht.
  - exists r, w'. split; [exact Hrun|]. split; [|split].
    + apply (Hset "nombre" (GStr "Ann")); [discriminate|by_evaluation].
    + apply Hkeep. by_evaluation.
    + apply Hkeep. by_evaluation.
Defined.

(** A phone with letters is sent to the validator and refused. *)
Lemma updatePatient_phone_check_witness :
  updatePatient {[ "_id" := GStr Demo.id1; "telefono" := GStr "abc" ]} Demo.w1
  = (Throw (GraphQLError "telefono invalido"), asked "abc" Demo.w1).
Proof.
  destruct (@updatePatient_phone_check Demo.externals Demo.w1
              {[ "_id" := GStr Demo.id1; "telefono" := GStr "abc" ]}
              Demo.id1 1 Demo.ana) as (Hsupplied & _).
  - by_evaluation.
  - by_evaluation.
  - apply list_elem_of_here.
  - by_evaluation.
  - destruct (Hsupplied "abc") as (_ & Hrejected).
    + by_evaluation.
    + discriminate.
    + apply Hrejected. by_evaluation.
Defined.

(** An empty phone is stored without the validator being asked, although
    the validator rejects it. *)
Lemma updatePatient_empty_phone_unvalidated :
  validar "" = false
  /\ exists (r : Doc) (w' : World),
       updatePatient {[ "_id" := GStr Demo.id1; "telefono" := GStr "" ]} Demo.w1
       = (Return r, w')
       /\ r !! "telefono" = Some (BStr "")
       /\ pacientes w' = [r]
       /\ validarCalls w' = validarCalls Demo.w1.
Proof.
  split; [reflexivity|].
  eexists _, _. split; [vm_compute; reflexivity|].
  repeat split.
Qed.

(** An unknown identifier and a phone the validator would refuse: the
    answer is "Paciente no encontrado" and the store is untouched. *)
Lemma updatePatient_existence_check_first_witness :
  validar "abc" = false
  /\ updatePatient {[ "_id" := GStr Demo.id2; "telefono" := GStr "abc" ]} Demo.w1
     = (Throw (GraphQLError "Paciente no encontrado"), Demo.w1).
Proof.
  split; [reflexivity|].
  apply (proj1 (@updatePatient_existence_check_first Demo.externals Demo.w1
                  {[ "_id" := GStr Demo.id2; "telefono" := GStr "abc" ]})
               Demo.id2 2).
  - by_evaluation.
  - by_evaluation.
  - intros d Hd. apply list_elem_of_singleton in Hd. subst d.
    vm_compute. discriminate.
Defined.

(** Ana is stored under the first identifier, and an update that names
    her by [id] does not find her. *)
Lemma updatePatient_id_argument_not_found_witness :
  exists w',
    updatePatient
      {[ "id" := GStr Demo.id1; "nombre" := GStr "Ann" ]} Demo.w1
    = (Throw (GraphQLError "Paciente no encontrado"), w')
    /\ pacientes w' = pacientes Demo.w1.
Proof.
  apply (@updatePatient_id_argument_not_found Demo.externals Demo.w1
           {[ "id" := GStr Demo.id1; "nombre" := GStr "Ann" ]}
           Demo.id1 1 Demo.ana).
  - apply demo_w1_ok.
  - apply demo_rename_schema.
  - by_evaluation.
  - by_evaluation.
  - apply list_elem_of_here.
  - by_evaluation.
Defined.

(** "next tuesday" is no date, and the appointment is stored all the
    same. *)
Lemma addAppointment_unparseable_date_witness :
  addAppointment Demo.id1 "next tuesday" "checkup" Demo.w1
  = (Return (mkCita 2 1 None "checkup"),
     mkWorld (pacientes Demo.w1)
             (citas Demo.w1 ++ [new_appointment 2 1 None "checkup"])
             3 (validarCalls Demo.w1)).
Proof.
  apply (proj2 (@addAppointment_unparseable_date Demo.externals
                  Demo.w1 Demo.id1 "next tuesday" "checkup" 1
                  eq_refl eq_refl)).
  intros c Hc. apply elem_of_nil in Hc. destruct Hc.
Defined.

Lemma addAppointment_invalid_date_inserted :
  Date_parse "next tuesday" = None
  /\ exists (c : Cita) (w' : World),
       addAppointment Demo.id1 "next tuesday" "checkup" Demo.w1
       = (Return c, w')
       /\ length (citas w') = S (length (citas Demo.w1)).
Proof.
  split; [reflexivity|].
  eexists _, _. split; [vm_compute; reflexivity|]. reflexivity.
Qed.

(** Deleting the booked check-up answers [true], and then [false]. *)
Lemma deleteAppointment_true_iff_removed_witness :
  exists (l1 l2 : list Doc) (w' : World),
    citas Demo.w2 = l1 ++ Demo.checkup :: l2
    /\ deleteAppointment Demo.id2 Demo.w2 = (Return true, w')
    /\ citas w' = l1 ++ l2
    /\ pacientes w' = pacientes Demo.w2
    /\ (forall x, x ∈ citas w' -> doc_id x <> Some 2)
    /\ deleteAppointment Demo.id2 w' = (Return false, w').
Proof.
  apply (proj2 (@deleteAppointment_true_iff_removed Demo.externals Demo.w2 Demo.id2 2
                  eq_refl (NoDup_singleton _))
               Demo.checkup (list_elem_of_here _ _) eq_refl).
Defined.

(** "not-an-id" makes three resolvers throw the constructor's error, and
    [updatePatient], which receives it under [id], answer "Paciente no
    encontrado". *)
Lemma malformed_identifier_failures_witness :
  getPacient "not-an-id" Demo.w1 = (Throw BSONError, Demo.w1)
  /\ deleteAppointment "not-an-id" Demo.w1 = (Throw BSONError, Demo.w1)
  /\ updatePatient {[ "id" := GStr "not-an-id"; "nombre" := GStr "Ann" ]}
       Demo.w1
     = (Throw (GraphQLError "Paciente no encontrado"),
        mkWorld (pacientes Demo.w1) (citas Demo.w1) 3 (validarCalls Demo.w1)).
Proof.
  destruct (@malformed_identifier_failures Demo.externals Demo.w1 "not-an-id" eq_refl)
    as (Hget & Hdel & _ & _ & Hupd).
  split; [exact Hget|]. split; [exact Hdel|].
  apply Hupd; [apply demo_rename_schema|by_evaluation|apply demo_w1_ok].
Defined.

(** A phone made of letters is stored by [addPatient]. *)
Lemma addPatient_stores_rejected_phone_witness :
  validar "abc" = false
  /\ exists (p : Doc) (w' : World),
       addPatient "Eve" "abc" "e@x.com" Demo.w1 = (Return p, w')
       /\ validarCalls w' = validarCalls Demo.w1
       /\ p ∈ pacientes w'
       /\ p !! "telefono" = Some (BStr "abc")
       /\ ~ phones_valid w'.
Proof.
  split; [reflexivity|].
  apply (@addPatient_stores_rejected_phone Demo.externals Demo.w1 "Eve" "abc" "e@x.com" eq_refl).
  intros d Hd. apply list_elem_of_singleton in Hd. subst d.
  intros [Hp|Hc]; vm_compute in Hp || vm_compute in Hc; discriminate.
Defined.

(** ** Lookups, invariants and request sequences on concrete stores *)

Ltac by_decision := apply (bool_decide_unpack _); vm_compute; exact I.

Lemma demo_w3_unique : ids_unique (pacientes Demo.w3).
Proof. unfold ids_unique. by_decision. Defined.

Lemma demo_w1_distinct : patients_distinct Demo.w1.
Proof. split; [constructor|exact I]. Defined.

Lemma demo_w2_distinct : appointments_distinct Demo.w2.
Proof. split; [constructor|exact I]. Defined.

(** Nobody in the store of Ana alone has Bob's phone or email. *)
Lemma demo_bob_is_new :
  forall d, d ∈ pacientes Demo.w1 -> ~ same_phone_or_email "555-2" "b@x.com" d.
Proof.
  intros d Hd. apply list_elem_of_singleton in Hd. subst d.
  intros [Hp|Hc]; vm_compute in Hp || vm_compute in Hc; discriminate.
Defined.

(** Ana is found under the first identifier. *)
Lemma getPacient_finds_by_id_witness :
  getPacient Demo.id1 Demo.w1 = (Return Demo.ana, Demo.w1).
Proof.
  apply (proj1 (@getPacient_finds_by_id Demo.externals Demo.w1 Demo.id1 1
                  ltac:(by_evaluation) (NoDup_singleton _))).
  - apply list_elem_of_here.
  - by_evaluation.
Defined.

(** Bob is created and fetched back under the identifier shown for him. *)
Lemma addPatient_then_getPacient_witness :
  exists (p : Doc) (w' : World) (id : string),
    addPatient "Bob" "555-2" "b@x.com" Demo.w1 = (Return p, w')
    /\ Paciente_id (H := demo_printing) p = Some id
    /\ getPacient id w' = (Return p, w').
Proof.
  apply (@addPatient_then_getPacient Demo.externals demo_printing
           Demo.w1 "Bob" "555-2" "b@x.com").
  - apply demo_w1_ok.
  - apply demo_bob_is_new.
  - by_evaluation.
Defined.


Lemma addPatient_keeps_patients_distinct_witness :
  patients_distinct (addPatient "Bob" "555-2" "b@x.com" Demo.w1).2.
Proof.
  apply (addPatient_keeps_patients_distinct Demo.w1 "Bob" "555-2" "b@x.com").
  apply demo_w1_distinct.
Defined.

(** Bob is given Ana's email. *)
Lemma updatePatient_no_uniqueness_check_witness :
  exists (r : Doc) (w' : World),
    updatePatient {[ "_id" := GStr Demo.id2; "correo" := GStr "a@x.com" ]}
      Demo.w3
    = (Return r, w')
    /\ pacientes w' = [Demo.ana] ++ r :: []
    /\ patients_collide r Demo.ana
    /\ ~ patients_distinct w'.
Proof.
  apply (@updatePatient_no_uniqueness_check Demo.externals Demo.w3
           {[ "_id" := GStr Demo.id2; "correo" := GStr "a@x.com" ]}
           Demo.id2 2 Demo.bob Demo.ana [Demo.ana] [] "a@x.com").
  - by_evaluation.
  - by_evaluation.
  - reflexivity.
  - by_evaluation.
  - apply demo_w3_unique.
  - intros t Ht. vm_compute in Ht. discriminate Ht.
  - apply list_elem_of_here.
  - by_evaluation.
  - by_evaluation.
Defined.

Lemma appointments_stay_distinct_witness :
  appointments_distinct
    (addAppointment Demo.id1 "2024-05-02" "review" Demo.w2).2
  /\ appointments_distinct (deleteAppointment Demo.id2 Demo.w2).2.
Proof.
  destruct (@appointments_stay_distinct Demo.externals Demo.w2
              demo_w2_distinct) as (Hadd & Hdel).
  split; [apply Hadd|apply Hdel].
Defined.

(** The check-up just booked is the one appointment listed. *)
Lemma addAppointment_then_getAppointments_witness :
  exists d : Doc,
    getAppointments Demo.w2 = (Return (citas Demo.w1 ++ [d]), Demo.w2)
    /\ Cita_of_doc d = Some (mkCita 2 1 (Some 1714521600000%Z) "checkup").
Proof.
  apply (@addAppointment_then_getAppointments Demo.externals Demo.w1 Demo.w2
           Demo.id1 "2024-05-01" "checkup"
           (mkCita 2 1 (Some 1714521600000%Z) "checkup")).
  by_evaluation.
Defined.

(** An appointment for the second identifier, which no patient carries,
    is accepted, and its patient expands to nothing. *)
Lemma addAppointment_does_not_check_patient_witness :
  exists (c : Cita) (w' : World),
    addAppointment Demo.id2 "2024-05-01" "checkup" Demo.w1 = (Return c, w')
    /\ Cita_paciente c w' = (Return None, w').
Proof.
  destruct (@addAppointment_does_not_check_patient Demo.externals Demo.w1
              Demo.id2 "2024-05-01" "checkup" 2 ltac:(by_evaluation))
    as (c & w' & Hrun & Hnone & _).
  - intros x Hx. apply elem_of_nil in Hx. destruct Hx.
  - exists c, w'. split; [exact Hrun|]. apply Hnone.
    intros d Hd. apply list_elem_of_singleton in Hd. subst d.
    vm_compute. discriminate.
Defined.

(** Once the check-up is cancelled, the day can be booked again. *)
Lemma deleteAppointment_frees_slot_witness :
  exists (w1 w2 : World),
    deleteAppointment Demo.id2 Demo.w2 = (Return true, w1)
    /\ addAppointment Demo.id1 "2024-05-01" "review" w1
       = (Return (mkCita 3 1 (Some 1714521600000%Z) "review"), w2).
Proof.
  apply (@deleteAppointment_frees_slot Demo.externals Demo.w2
           Demo.id2 Demo.id1 "2024-05-01" 2 1 Demo.checkup).
  - by_evaluation.
  - by_evaluation.
  - apply NoDup_singleton.
  - apply demo_w2_distinct.
  - apply list_elem_of_here.
  - by_evaluation.
  - split; by_evaluation.
Defined.

(** Ana, renamed, is what [getPacient] then returns. *)
Lemma updatePatient_then_getPacient_witness :
  let r : Doc :=
    {[ "_id" := BOid 1; "nombre" := BStr "Ann";
       "telefono" := BStr "555-1"; "correo" := BStr "a@x.com" ]} in
  getPacient Demo.id1 (mkWorld [r] [] 2 []) = (Return r, mkWorld [r] [] 2 []).
Proof.
  intros r.
  apply (@updatePatient_then_getPacient Demo.externals Demo.w1
           (mkWorld [r] [] 2 [])
           {[ "_id" := GStr Demo.id1; "nombre" := GStr "Ann" ]}
           Demo.id1 1 r).
  - by_evaluation.
  - by_evaluation.
  - by_evaluation.
Defined.

(** Bob and Rob register with one phone at the same time. *)
Lemma addPatient_interleaved_duplicates_witness :
  exists (p1 p2 : Doc) (w' : World),
    addPatient_twice_interleaved
      "Bob" "555-2" "b@x.com" "Rob" "555-2" "r@x.com" Demo.w1
    = (Return (p1, p2), w')
    /\ pacientes w' = pacientes Demo.w1 ++ [p1; p2]
    /\ patients_collide p1 p2
    /\ ~ patients_distinct w'.
Proof.
  apply (addPatient_interleaved_duplicates Demo.w1
           "Bob" "555-2" "b@x.com" "Rob" "555-2" "r@x.com").
  - apply demo_bob_is_new.
  - intros d Hd. apply list_elem_of_singleton in Hd. subst d.
    intros [Hp|Hc]; vm_compute in Hp || vm_compute in Hc; discriminate.
  - now left.
Defined.

Lemma demo_w0_ok : store_ok Demo.w0.
Proof. repeat split; constructor. Defined.

Lemma serve_keeps_invariants_witness :
  store_ok (serve demo_day Demo.w0)
  /\ patients_distinct (serve demo_day Demo.w0)
  /\ appointments_distinct (serve demo_day Demo.w0).
Proof.
  apply (@serve_keeps_invariants Demo.externals demo_day Demo.w0).
  - apply demo_w0_ok.
  - exact I.
  - exact I.
Defined.

Lemma serve_never_updates_patients_witness :
  (exists added,
     pacientes (serve demo_day Demo.w0) = pacientes Demo.w0 ++ added)
  /\ validarCalls (serve demo_day Demo.w0) = validarCalls Demo.w0.
Proof.
  apply (@serve_never_updates_patients Demo.externals demo_day Demo.w0).
  apply demo_w0_ok.
Defined.

(** The check-up is booked and cancelled under the identifier shown. *)
Lemma addAppointment_then_deleteAppointment_witness :
  exists w'',
    deleteAppointment
      (Cita_id (H := demo_printing)
         (mkCita 2 1 (Some 1714521600000%Z) "checkup")) Demo.w2
    = (Return true, w'')
    /\ citas w'' = citas Demo.w1
    /\ pacientes w'' = pacientes Demo.w1.
Proof.
  apply (@addAppointment_then_deleteAppointment Demo.externals demo_printing
           Demo.w1 Demo.w2 Demo.id1 "2024-05-01" "checkup").
  - apply demo_w1_ok.
  - by_evaluation.
  - by_evaluation.
Defined.

(** ** Dispatched updates on a concrete store *)

(** Renaming Ana through the schema: "Paciente no encontrado", Ana still
    named Ana, and [id] part of what the resolver would send. *)
Lemma updatePatient_dispatched_merges_nothing_witness :
  exists w',
    updatePatient
      (updatePatient_args Demo.id1 (Some (GStr "Ann")) None None) Demo.w1
    = (Throw (GraphQLError "Paciente no encontrado"), w')
    /\ pacientes w' = pacientes Demo.w1
    /\ (forall d, d ∈ pacientes w' -> doc_id d = Some 1 ->
                  ids_unique (pacientes Demo.w1) ->
                  d !! "nombre" <> Some (toBson (GStr "Ann")))
    /\ update_payload
         (updatePatient_args Demo.id1 (Some (GStr "Ann")) None None) !! "id"
       = Some (BStr Demo.id1).
Proof.
  apply (@updatePatient_dispatched_merges_nothing Demo.externals Demo.w1
           (updatePatient_args Demo.id1 (Some (GStr "Ann")) None None)
           Demo.id1 1 Demo.ana "nombre" (GStr "Ann")).
  - apply demo_w1_ok.
  - apply updatePatient_args_schema.
  - by_evaluation.
  - by_evaluation.
  - apply list_elem_of_here.
  - by_evaluation.
  - by_evaluation.
  - vm_compute. discriminate.
Defined.

(** A phone with letters for Ana through the schema: "Paciente no
    encontrado" and no question to the validator; an empty phone for Ana
    named under [_id]: stored, and no question either. *)
Lemma updatePatient_phone_not_validated_witness :
  validar "abc" = false
  /\ (exists w',
        updatePatient
          (updatePatient_args Demo.id1 None (Some (GStr "abc")) None) Demo.w1
        = (Throw (GraphQLError "Paciente no encontrado"), w')
        /\ validarCalls w' = validarCalls Demo.w1
        /\ pacientes w' = pacientes Demo.w1)
  /\ validar "" = false
  /\ (exists (r : Doc) (w' : World),
        updatePatient {[ "_id" := GStr Demo.id1; "telefono" := GStr "" ]}
          Demo.w1
        = (Return r, w')
        /\ validarCalls w' = validarCalls Demo.w1
        /\ r !! "telefono" = Some (BStr "")
        /\ pacientes w' = [] ++ r :: []).
Proof.
  split; [reflexivity|]. split; [|split; [reflexivity|]].
  - apply (proj1 (@updatePatient_phone_not_validated Demo.externals Demo.w1
                    (updatePatient_args Demo.id1 None (Some (GStr "abc")) None)
                    Demo.id1 1 Demo.ana [] []
                    ltac:(by_evaluation) eq_refl ltac:(by_evaluation)
                    (NoDup_singleton _)) "abc").
    + apply updatePatient_args_schema.
    + by_evaluation.
    + apply demo_w1_ok.
    + by_evaluation.
    + discriminate.
    + by_evaluation.
  - apply (proj2 (@updatePatient_phone_not_validated Demo.externals Demo.w1
                    {[ "_id" := GStr Demo.id1; "telefono" := GStr "" ]}
                    Demo.id1 1 Demo.ana [] []
                    ltac:(by_evaluation) eq_refl ltac:(by_evaluation)
                    (NoDup_singleton _))).
    + by_evaluation.
    + by_evaluation.
Defined.
